(** * ChefGenie: cook mode, duration extraction and step-ingredient matching

    A shallow embedding of the cook-mode component of ChefGenie
    (components/CookMode.tsx) and of the quantity scaler it is shipped
    with, together with the properties stated for them.

    Conventions of the embedding.
    - A JavaScript string is the list of its code units.  The model covers
      the code units below 256; a unit is an [ascii].  On these units
      [toLowerCase] works unit by unit, [\d] is [0-9] and [\s] is
      TAB, LF, VT, FF, CR, SPACE and NBSP.
    - A JavaScript number that holds an integer is a [Z]; the value that
      [parseFloat] returns is a [Q].  Numbers are exact: the rounding of
      doubles above 2^53 is not modelled.
    - [null] and [undefined] are [None]. *)

From Stdlib Require Import ZArith QArith Qround List Ascii String Bool Lia.
From Stdlib Require Import ZifyBool.
From stdpp Require Import base decidable option list gmap strings pretty.
Import ListNotations.

Local Open Scope Z_scope.

(** ** Strings *)

Module JsString.

Definition jsstring : Type := list ascii.

(** A literal of the source, as a list of code units. *)
Definition js (s : string) : jsstring := list_ascii_of_string s.

Definition code (c : ascii) : N := N_of_ascii c.

Definition inRange (lo hi : N) (c : ascii) : bool :=
  ((lo <=? code c) && (code c <=? hi))%N.

(** [\d] *)
Definition isDigit (c : ascii) : bool := inRange 48 57 c.

(** [\s] on the units below 256: U+0009..U+000D, U+0020, U+00A0. *)
Definition isSpace (c : ascii) : bool :=
  inRange 9 13 c || (code c =? 32)%N || (code c =? 160)%N.

(** The separator class [[\s-]] of the tokenizer. *)
Definition isSep (c : ascii) : bool := isSpace c || (code c =? 45)%N.

(** Upper-case letters of Latin-1: A-Z, and U+00C0..U+00DE but U+00D7. *)
Definition isUpper (c : ascii) : bool :=
  inRange 65 90 c || (inRange 192 222 c && negb (code c =? 215)%N).

(** Lower-case letters of Latin-1 whose capital is in Latin-1:
    a-z, and U+00E0..U+00FE but U+00F7. *)
Definition isLower (c : ascii) : bool :=
  inRange 97 122 c || (inRange 224 254 c && negb (code c =? 247)%N).

Definition lowerChar (c : ascii) : ascii :=
  if isUpper c then ascii_of_N (code c + 32) else c.

(** [Canonicalize] of a case-insensitive, non-unicode regular expression:
    the unit is upper-cased when its capital is a single unit that does
    not fall from above 127 to below 128. *)
Definition canonicalize (c : ascii) : ascii :=
  if isLower c then ascii_of_N (code c - 32) else c.

(** [String.prototype.toLowerCase] *)
Definition toLowerCase (s : jsstring) : jsstring := map lowerChar s.

(** [prefix.length <= s.length] and [s] starts with [prefix]. *)
Fixpoint startsWith (s prefix : jsstring) {struct prefix} : bool :=
  match prefix, s with
  | [], _ => true
  | _ :: _, [] => false
  | p :: prefix', c :: s' => Ascii.eqb p c && startsWith s' prefix'
  end.

(** [String.prototype.includes]: [sub] occurs in [s] at some index. *)
Fixpoint includes (s sub : jsstring) : bool :=
  startsWith s sub ||
  match s with
  | [] => false
  | _ :: s' => includes s' sub
  end.

(** [s.split(sep)[0]] for a one-unit separator: the units before the
    first occurrence of [sep], all of [s] when there is none. *)
Fixpoint splitFirst (sep : ascii) (s : jsstring) : jsstring :=
  match s with
  | [] => []
  | c :: s' => if Ascii.eqb c sep then [] else c :: splitFirst sep s'
  end.

(** [s.split(/[C]+/)] for a character class [C] given by [sep]: the
    pieces between the maximal runs of separators.  A run at the very
    start or end of [s] yields an empty first or last piece, and the
    empty string yields one empty piece.  [inRun] tells that the unit
    before [s] was a separator, whose run is still being skipped. *)
Fixpoint splitGo (sep : ascii -> bool) (inRun : bool) (s : jsstring)
    : list jsstring :=
  match s with
  | [] => [[]]
  | c :: s' =>
      if sep c then
        if inRun then splitGo sep true s'
        else [] :: splitGo sep true s'
      else
        match splitGo sep false s' with
        | piece :: pieces => (c :: piece) :: pieces
        | [] => [[c]]
        end
  end.

Definition splitClass (sep : ascii -> bool) (s : jsstring) : list jsstring :=
  splitGo sep false s.

End JsString.
Import JsString.

(** ** Regular expressions

    The two patterns of the duration extractor are run by a backtracking
    matcher with the priorities of the language: a state is the text still
    to read and capture group 1; [run] lists the states in which a pattern
    can end, the preferred one first. *)

Module Regex.

Inductive regex : Type :=
| Empty                            (* the empty pattern *)
| Chars (p : ascii -> bool)        (* a class: [\d], [\s], one letter *)
| Seq (r1 r2 : regex)              (* r1 r2 *)
| Alt (r1 r2 : regex)              (* r1|r2 *)
| Opt (r : regex)                  (* r?, greedy *)
| Star (r : regex)                 (* r*, greedy *)
| Group (r : regex).               (* (r), capture group 1 *)

(** [r+] *)
Definition Plus (r : regex) : regex := Seq r (Star r).

(** A pattern character under the [i] flag. *)
Definition Lit (c : ascii) : regex :=
  Chars (fun x => Ascii.eqb (canonicalize x) (canonicalize c)).

(** A word of the pattern, letter by letter. *)
Fixpoint Word (w : jsstring) : regex :=
  match w with
  | [] => Empty
  | c :: w' => Seq (Lit c) (Word w')
  end.

Record mstate : Type := MState { cap1 : option jsstring; rest : jsstring }.

Definition consumed (x y : mstate) : jsstring :=
  take (length (rest x) - length (rest y))%nat (rest x).

Definition progress (x y : mstate) : bool :=
  (length (rest y) <? length (rest x))%nat.

(** The iterations of [r*], where [step] runs [r] once: an iteration
    that reads nothing is refused, so [fuel], the number of units left,
    is never used up. *)
Fixpoint iterate (step : mstate -> list mstate) (fuel : nat) (x : mstate)
    : list mstate :=
  match fuel with
  | O => [x]
  | S fuel' =>
      flat_map (iterate step fuel') (List.filter (progress x) (step x))
      ++ [x]
  end.

Fixpoint run (r : regex) (x : mstate) : list mstate :=
  match r with
  | Empty => [x]
  | Chars p =>
      match rest x with
      | c :: s' => if p c then [MState (cap1 x) s'] else []
      | [] => []
      end
  | Seq r1 r2 => flat_map (run r2) (run r1 x)
  | Alt r1 r2 => run r1 x ++ run r2 x
  | Opt r1 => List.filter (progress x) (run r1 x) ++ [x]
  | Star r1 => iterate (run r1) (length (rest x)) x
  | Group r1 =>
      map (fun y => MState (Some (consumed x y)) (rest y)) (run r1 x)
  end.

(** [RegExp.prototype.exec] without the [g] flag: the preferred match at
    the least index that has one. *)
Fixpoint exec (r : regex) (s : jsstring) : option mstate :=
  match head (run r (MState None s)) with
  | Some m => Some m
  | None =>
      match s with
      | [] => None
      | _ :: s' => exec r s'
      end
  end.

(** The words that a pattern denotes, captures and priorities apart. *)
Inductive Matches : regex -> jsstring -> Prop :=
| MEmpty : Matches Empty []
| MChars p c : p c = true -> Matches (Chars p) [c]
| MSeq r1 r2 w1 w2 :
    Matches r1 w1 -> Matches r2 w2 -> Matches (Seq r1 r2) (w1 ++ w2)
| MAltL r1 r2 w : Matches r1 w -> Matches (Alt r1 r2) w
| MAltR r1 r2 w : Matches r2 w -> Matches (Alt r1 r2) w
| MOptNone r : Matches (Opt r) []
| MOptSome r w : Matches r w -> Matches (Opt r) w
| MStarNil r : Matches (Star r) []
| MStarCons r w1 w2 :
    Matches r w1 -> Matches (Star r) w2 -> Matches (Star r) (w1 ++ w2)
| MGroup r w : Matches r w -> Matches (Group r) w.

(** The text contains a word of the pattern. *)
Definition contains (r : regex) (text : jsstring) : Prop :=
  exists pre w post, text = pre ++ w ++ post /\ Matches r w.

(** The pattern has no capture group. *)
Fixpoint groupless (r : regex) : bool :=
  match r with
  | Empty | Chars _ => true
  | Seq r1 r2 | Alt r1 r2 => groupless r1 && groupless r2
  | Opt r1 | Star r1 => groupless r1
  | Group _ => false
  end.

End Regex.
Import Regex.

(** ** The duration extractor *)

Module Duration.

Definition digitValue (c : ascii) : Z := Z.of_N (code c) - 48.

(** The value of a run of digits read after the value [acc]. *)
Fixpoint decimalFrom (acc : Z) (s : jsstring) : Z :=
  match s with
  | [] => acc
  | c :: s' => decimalFrom (10 * acc + digitValue c) s'
  end.

Definition decimal (s : jsstring) : Z := decimalFrom 0 s.

Fixpoint takeDigits (s : jsstring) : jsstring :=
  match s with
  | c :: s' => if isDigit c then c :: takeDigits s' else []
  | [] => []
  end.

Fixpoint dropDigits (s : jsstring) : jsstring :=
  match s with
  | c :: s' => if isDigit c then dropDigits s' else s
  | [] => []
  end.

(** [parseFloat] on the literals [digits], [digits.], [digits.digits] and
    [.digits]: the value of the longest prefix of that form, [None] (NaN)
    when there is none.  White space and a sign in front, an exponent and
    [Infinity] are left out: the extractor only passes runs of digits
    (lemma [capture_shape]). *)
Definition parseFloat (s : jsstring) : option Q :=
  let ip := takeDigits s in
  let fp :=
    match dropDigits s with
    | c :: s' => if (code c =? 46)%N then takeDigits s' else []
    | [] => []
    end in
  match ip, fp with
  | [], [] => None
  | _, _ =>
      Some (inject_Z (decimal ip)
            + inject_Z (decimal fp) / inject_Z (10 ^ Z.of_nat (length fp)))%Q
  end.

(** [\d+(?:-\d+)?] *)
Definition numberOrRange : regex :=
  Seq (Plus (Chars isDigit)) (Opt (Seq (Lit "-") (Plus (Chars isDigit)))).

(** [(\d+(?:-\d+)?)] *)
Definition number : regex := Group numberOrRange.

(** [\s*(?:min|minute)s?] *)
Definition minuteUnit : regex :=
  Seq (Star (Chars isSpace))
    (Seq (Alt (Word (js "min")) (Word (js "minute"))) (Opt (Lit "s"))).

(** [\s*(?:hr|hour)s?] *)
Definition hourUnit : regex :=
  Seq (Star (Chars isSpace))
    (Seq (Alt (Word (js "hr")) (Word (js "hour"))) (Opt (Lit "s"))).

(** [/(\d+(?:-\d+)?)\s*(?:min|minute)s?/i] *)
Definition minuteRe : regex := Seq number minuteUnit.

(** [/(\d+(?:-\d+)?)\s*(?:hr|hour)s?/i] *)
Definition hourRe : regex := Seq number hourUnit.

(** [text.match(re)], then [m[1]]: [None] when there is no match
    ([null]) or group 1 took no part in it ([undefined]). *)
Definition matchGroup1 (re : regex) (text : jsstring) : option jsstring :=
  match exec re text with
  | Some m => cap1 m
  | None => None
  end.

(** [if (val.includes('-')) val = val.split('-')[0]] *)
Definition lowerOfRange (val : jsstring) : jsstring :=
  if includes val (js "-") then splitFirst "-" val else val.

(** [Math.floor(parseFloat(val) * k)]; [None] stands for NaN. *)
Definition floorTimes (val : jsstring) (k : Z) : option Z :=
  match parseFloat val with
  | Some q => Some (Qfloor (q * inject_Z k))
  | None => None
  end.

(** [extractTimeInSeconds]: [None] is [null].  Group 1 takes part in
    every match (lemma [exec_captures]), so [val] is never [undefined],
    and the number returned is never NaN (lemmas [extract_of_minutes] and
    [extract_of_hours]): the [None] of these two cases is never returned. *)
Definition extractTimeInSeconds (text : jsstring) : option Z :=
  match exec minuteRe text with
  | Some minuteMatch =>
      match cap1 minuteMatch with
      | Some val => floorTimes (lowerOfRange val) 60
      | None => None
      end
  | None =>
      match exec hourRe text with
      | Some hourMatch =>
          match cap1 hourMatch with
          | Some val => floorTimes (lowerOfRange val) 3600
          | None => None
          end
      | None => None
      end
  end.

(** A run of one digit or more. *)
Definition digits (w : jsstring) : Prop :=
  w <> [] /\ Forall (fun c => isDigit c = true) w.

End Duration.
Import Duration.

(** ** Cook mode *)

Module CookMode.

(** The fields of [Ingredient] and [Recipe] (types.ts) that cook mode
    reads. *)
Record Ingredient : Type := { name : jsstring; amount : jsstring }.

Record Recipe : Type :=
  { steps : list jsstring; ingredients : list Ingredient }.

(** [{ ...ing, originalIndex: idx }] *)
Record IndexedIngredient : Type :=
  { ingredient : Ingredient; originalIndex : nat }.

Record Timer : Type :=
  { duration : Z;
    remaining : Z;
    isRunning : bool;
    stepIndex : Z }.      (* the step this timer belongs to *)

(** The state of the component: the three [useState] cells, and whether
    the interval held by [timerRef] is live. *)
Record State : Type :=
  { currentStepIndex : Z;
    timer : option Timer;
    checkedItems : gset jsstring;
    interval : bool }.

Definition initial : State :=
  {| currentStepIndex := 0; timer := None; checkedItems := ∅;
     interval := false |}.

(** [arr[i]]: [undefined] out of range. *)
Definition at_index {A} (arr : list A) (i : Z) : option A :=
  if i <? 0 then None else arr !! Z.to_nat i.

Definition setCurrentStepIndex (f : Z -> Z) (s : State) : State :=
  {| currentStepIndex := f (currentStepIndex s); timer := timer s;
     checkedItems := checkedItems s; interval := interval s |}.

Definition setTimer (f : option Timer -> option Timer) (s : State) : State :=
  {| currentStepIndex := currentStepIndex s; timer := f (timer s);
     checkedItems := checkedItems s; interval := interval s |}.

Definition setCheckedItems (f : gset jsstring -> gset jsstring) (s : State)
    : State :=
  {| currentStepIndex := currentStepIndex s; timer := timer s;
     checkedItems := f (checkedItems s); interval := interval s |}.

Definition setInterval (b : bool) (s : State) : State :=
  {| currentStepIndex := currentStepIndex s; timer := timer s;
     checkedItems := checkedItems s; interval := b |}.

(** *** The timer interval effect *)

(** The callback of the interval. *)
Definition tickUpdate (prev : option Timer) : option Timer :=
  match prev with
  | None => prev
  | Some t =>
      if negb (isRunning t) then prev
      else if remaining t <=? 1 then
        (* Timer finished *)
        Some {| duration := duration t; remaining := 0; isRunning := false;
                stepIndex := stepIndex t |}
      else
        Some {| duration := duration t; remaining := remaining t - 1;
                isRunning := isRunning t; stepIndex := stepIndex t |}
  end.

(** The dependency of the effect, [timer?.isRunning]. *)
Definition effectDep (s : State) : option bool := isRunning <$> timer s.

(** The body of the effect; the clean-up of the previous run has cleared
    the interval before. *)
Definition timerEffect (s : State) : State :=
  match timer s with
  | Some t =>
      if isRunning t && (0 <? remaining t) then setInterval true s
      else setInterval false s
  | None => setInterval false s
  end.

(** A render that follows the update from [old] to [new]: the effect runs
    again when its dependency has changed. *)
Definition commit (old new : State) : State :=
  if bool_decide (effectDep old = effectDep new) then new
  else timerEffect new.

(** *** What a render derives from the state *)

Definition currentStepText (recipe : Recipe) (s : State) : option jsstring :=
  at_index (steps recipe) (currentStepIndex s).

(** [None] also when the step text is [undefined], where the render
    throws: only a recipe without steps gets there. *)
Definition detectedDuration (recipe : Recipe) (s : State) : option Z :=
  match currentStepText recipe s with
  | Some text => extractTimeInSeconds text
  | None => None
  end.

(** The callback of the [filter] of [stepIngredients]. *)
Definition mentions (currentStepText : jsstring) (ing : Ingredient) : bool :=
  if includes (toLowerCase currentStepText) (toLowerCase (name ing))
  then true
  else
    let parts := splitClass isSep (name ing) in
    existsb (fun part =>
               (4 <=? length part)%nat &&
               includes (toLowerCase currentStepText) (toLowerCase part))
            parts.

Definition indexed (idx : nat) (ing : Ingredient) : IndexedIngredient :=
  {| ingredient := ing; originalIndex := idx |}.

Definition stepIngredients (currentStepText : jsstring)
    (ingredients : list Ingredient) : list IndexedIngredient :=
  List.filter (fun ing => mentions currentStepText (ingredient ing))
    (imap indexed ingredients).

Definition isTimerForThisStep (s : State) : bool :=
  match timer s with
  | Some t => stepIndex t =? currentStepIndex s
  | None => false
  end.

(** *** The handlers *)

Definition handleNext (recipe : Recipe) (s : State) : State :=
  if currentStepIndex s <? Z.of_nat (length (steps recipe)) - 1
  then commit s (setCurrentStepIndex (fun prev => prev + 1) s)
  else s.

Definition handlePrev (s : State) : State :=
  if 0 <? currentStepIndex s
  then commit s (setCurrentStepIndex (fun prev => prev - 1) s)
  else s.

Definition checkKey (stepIdx : Z) (ingredientIndex : nat) : jsstring :=
  js (pretty stepIdx) ++ js "-" ++ js (pretty ingredientIndex).

Definition toggleIngredientCheck (ingredientIndex : nat) (s : State) : State :=
  let key := checkKey (currentStepIndex s) ingredientIndex in
  commit s
    (setCheckedItems
       (fun prev => if decide (key ∈ prev) then prev ∖ {[key]}
                    else prev ∪ {[key]}) s).

Definition startTimer (recipe : Recipe) (s : State) : State :=
  match detectedDuration recipe s with
  | Some d =>
      if d =? 0 then s
      else
        commit s
          (setTimer
             (fun _ => Some {| duration := d; remaining := d;
                               isRunning := true;
                               stepIndex := currentStepIndex s |}) s)
  | None => s
  end.

Definition toggleUpdate (prev : option Timer) : option Timer :=
  match prev with
  | Some t =>
      Some {| duration := duration t; remaining := remaining t;
              isRunning := negb (isRunning t); stepIndex := stepIndex t |}
  | None => None
  end.

Definition toggleTimer (s : State) : State :=
  commit s (setTimer toggleUpdate s).

Definition resetUpdate (prev : option Timer) : option Timer :=
  match prev with
  | Some t =>
      Some {| duration := duration t; remaining := duration t;
              isRunning := false; stepIndex := stepIndex t |}
  | None => None
  end.

Definition resetTimer (s : State) : State :=
  commit s (setTimer resetUpdate s).

Definition stopTimer (s : State) : State :=
  commit s (setTimer (fun _ => None) s).

(** The [(Go to step)] link of the timer sheet. *)
Definition goToTimerStep (s : State) : State :=
  match timer s with
  | Some t => commit s (setCurrentStepIndex (fun _ => stepIndex t) s)
  | None => s
  end.

(** One firing of the interval: nothing fires once it is cleared. *)
Definition tick (s : State) : State :=
  if interval s then commit s (setTimer tickUpdate s) else s.

(** *** The session as a transition system *)

Inductive Op : Type :=
| Next | Prev
| StartTimer | Tick | ToggleTimer | ResetTimer | StopTimer
| GoToTimerStep
| ToggleIngredientCheck (ingredientIndex : nat).

Definition perform (recipe : Recipe) (op : Op) (s : State) : State :=
  match op with
  | Next => handleNext recipe s
  | Prev => handlePrev s
  | StartTimer => startTimer recipe s
  | Tick => tick s
  | ToggleTimer => toggleTimer s
  | ResetTimer => resetTimer s
  | StopTimer => stopTimer s
  | GoToTimerStep => goToTimerStep s
  | ToggleIngredientCheck i => toggleIngredientCheck i s
  end.

(** The control that triggers [op] is on the page, and enabled. *)
Definition offered (recipe : Recipe) (op : Op) (s : State) : bool :=
  match op with
  | Next =>
      negb (currentStepIndex s =? Z.of_nat (length (steps recipe)) - 1)
  | Prev => negb (currentStepIndex s =? 0)
  | StartTimer =>
      match detectedDuration recipe s with
      | Some d => negb (d =? 0) && negb (isTimerForThisStep s)
      | None => false
      end
  | Tick => interval s
  | ToggleTimer | ResetTimer =>
      match timer s with
      | Some t => negb (remaining t =? 0)
      | None => false
      end
  | StopTimer =>
      match timer s with
      | Some t => remaining t =? 0
      | None => false
      end
  | GoToTimerStep =>
      match timer s with
      | Some t => negb (remaining t =? 0) && negb (isTimerForThisStep s)
      | None => false
      end
  | ToggleIngredientCheck i =>
      match currentStepText recipe s with
      | Some text =>
          bool_decide
            (i ∈ map originalIndex
                   (stepIngredients text (ingredients recipe)))
      | None => false
      end
  end.

(** A user event: the handler runs when its control is offered. *)
Definition click (recipe : Recipe) (op : Op) (s : State) : State :=
  if offered recipe op s then perform recipe op s else s.

(** The states a session gets to by calls of the handlers and firings of
    the interval, in any order. *)
Inductive reachable (recipe : Recipe) : State -> Prop :=
| reachable_initial : reachable recipe initial
| reachable_perform op s :
    reachable recipe s -> reachable recipe (perform recipe op s).

(** The states a session gets to by user events and firings of the
    interval: the handlers run from the controls that the page offers. *)
Inductive reachableByClicks (recipe : Recipe) : State -> Prop :=
| clicks_initial : reachableByClicks recipe initial
| clicks_click op s :
    reachableByClicks recipe s -> reachableByClicks recipe (click recipe op s).

(** What holds of the timer in a session driven by the page: it is
    within bounds, a running timer has time left, and the interval is live
    exactly while the timer runs. *)
Definition pageInvariant (s : State) : Prop :=
  match timer s with
  | Some t =>
      0 <= remaining t <= duration t /\
      (isRunning t = true -> 0 < remaining t) /\
      interval s = isRunning t
  | None => interval s = false
  end.

(** The step shown and the step of the timer are steps of the recipe. *)
Definition stepsInRange (recipe : Recipe) (s : State) : Prop :=
  0 <= currentStepIndex s < Z.of_nat (length (steps recipe)) /\
  forall t, timer s = Some t ->
    0 <= stepIndex t < Z.of_nat (length (steps recipe)).

(** The timer, when there is one, has [0 <= remaining <= duration]. *)
Definition timerInBounds (s : State) : Prop :=
  forall t, timer s = Some t -> 0 <= remaining t <= duration t.

(** [s'] is [s] moved to step [i]: nothing else differs. *)
Definition movedTo (i : Z) (s s' : State) : Prop :=
  currentStepIndex s' = i /\ timer s' = timer s /\
  checkedItems s' = checkedItems s /\ interval s' = interval s.

End CookMode.
Import CookMode.

(** ** The matching rule in words

    What the step-ingredient matcher is to compute, stated on the text
    and not on the calls that compute it. *)

Module Words.

Definition noSep (sep : ascii -> bool) (w : jsstring) : Prop :=
  Forall (fun c => sep c = false) w.

(** [post] is empty or begins with a separator. *)
Definition sepAhead (sep : ascii -> bool) (post : jsstring) : Prop :=
  post = [] \/ exists c post', post = c :: post' /\ sep c = true.

(** [pre] is empty or ends with a separator. *)
Definition sepBehind (sep : ascii -> bool) (pre : jsstring) : Prop :=
  pre = [] \/ exists pre' c, pre = pre' ++ [c] /\ sep c = true.

(** A token of [s]: a non-empty run without separators that neither
    side can extend. *)
Definition tokenOf (sep : ascii -> bool) (s tok : jsstring) : Prop :=
  tok <> [] /\ noSep sep tok /\
  exists pre post,
    s = pre ++ tok ++ post /\ sepBehind sep pre /\ sepAhead sep post.

(** [tok] stands in [s] right after a separator, and nothing follows it
    but a separator. *)
Definition afterSep (sep : ascii -> bool) (s tok : jsstring) : Prop :=
  exists pre d post,
    s = pre ++ d :: tok ++ post /\ sep d = true /\ noSep sep tok /\
    sepAhead sep post.

(** [sub] occurs in [text] when case is ignored. *)
Definition occursIn (sub text : jsstring) : Prop :=
  exists pre post, toLowerCase text = pre ++ toLowerCase sub ++ post.

(** The step refers to the ingredient: by its full name, or by a token
    of its name, split on white space and hyphens, of 4 units or more. *)
Definition referenced (stepText : jsstring) (ing : Ingredient) : Prop :=
  occursIn (name ing) stepText \/
  exists tok,
    tokenOf isSep (name ing) tok /\ (4 <= length tok)%nat /\
    occursIn tok stepText.

End Words.
Import Words.

(** ** The quantity scaler

    RecipeDetailModal.tsx imports [scaleAmount] from the utils module and
    calls it as
    [scaleAmount(ing.amount, recipe.servings || 2, currentServings)];
    the utils module is not among the sources, and the scaler below
    follows its specification. *)

Module Scaler.

(** Modelled from the spec: a helper of the recognizer of [scaleAmount],
    absent from the sources.  The unit with code [sep], then a run of
    digits: the run and what follows it. *)
Definition digitsThen (sep : N) (s : jsstring) : option (jsstring * jsstring) :=
  match s with
  | c :: s' =>
      if (code c =? sep)%N then
        match takeDigits s' with
        | [] => None
        | ds => Some (ds, dropDigits s')
        end
      else None
  | [] => None
  end.

(** Modelled from the spec: a helper of the recognizer of [scaleAmount],
    absent from the sources.  The value of [num/den]; no value when the
    denominator is zero. *)
Definition fractionOf (num den : jsstring) : option Q :=
  if decimal den =? 0 then None
  else Some (inject_Z (decimal num) / inject_Z (decimal den))%Q.

(** Modelled from the spec: the recognizer of [scaleAmount], absent from
    the sources.  The amount begins with a mixed number [a b/c], a simple
    fraction [a/b], a decimal [a.b] or an integer [a]; the recognizer
    gives its value and the remainder of the string, and [None] when the
    amount does not begin with a number. *)
Definition leadingQuantity (amount : jsstring) : option (Q * jsstring) :=
  match takeDigits amount with
  | [] => None
  | a =>
      let after := dropDigits amount in
      let whole := inject_Z (decimal a) in
      let mixed :=
        '(b, after1) ← digitsThen 32 after;
        '(c, after2) ← digitsThen 47 after1;
        f ← fractionOf b c;
        Some (whole + f, after2)%Q in
      let fraction :=
        '(b, after1) ← digitsThen 47 after;
        f ← fractionOf a b;
        Some (f, after1) in
      let dec :=
        '(f, after1) ← digitsThen 46 after;
        Some (whole + inject_Z (decimal f)
                      / inject_Z (10 ^ Z.of_nat (length f)), after1)%Q in
      match mixed, fraction, dec with
      | Some r, _, _ => Some r
      | None, Some r, _ => Some r
      | None, None, Some r => Some r
      | None, None, None => Some (whole, after)
      end
  end.

(** Modelled from the spec: the print of the scaled number, absent from
    the sources.  A clean integer is printed as it is; otherwise a
    quarter, a half or three quarters beside the whole part are printed
    as a simple fraction, and anything else with one decimal place. *)
Definition formatQuantity (q : Q) : jsstring :=
  let whole := Qfloor q in
  let part := Qred (q - inject_Z whole) in
  let lead := if whole =? 0 then [] else js (pretty whole) ++ js " " in
  if Qeq_bool part 0 then js (pretty whole)
  else if Qeq_bool part (1 # 4) then lead ++ js "1/4"
  else if Qeq_bool part (1 # 2) then lead ++ js "1/2"
  else if Qeq_bool part (3 # 4) then lead ++ js "3/4"
  else
    let tenths := Qfloor (q * 10 + (1 # 2)) in
    (if tenths <? 0 then js "-" else [])
    ++ js (pretty (Z.abs tenths / 10)) ++ js "."
    ++ js (pretty (Z.abs tenths mod 10)).

(** Modelled from the spec: [scaleAmount] of the utils module, absent
    from the sources.  An amount that begins with a number is scaled by
    [desired / original], an original count that is not positive counting
    as 1, and the remainder of the string is kept; any other amount is
    returned as it is. *)
Definition scaleAmount (amount : jsstring) (originalServings : Z)
    (desiredServings : Z) : jsstring :=
  match leadingQuantity amount with
  | Some (q, remainder) =>
      let original :=
        if originalServings <=? 0 then 1 else originalServings in
      formatQuantity (q * inject_Z desiredServings / inject_Z original)
      ++ remainder
  | None => amount
  end.

(** The words of the spec: the amount begins with a recognizable numeric
    quantity.  Each of the four forms begins with a digit. *)
Definition beginsWithQuantity (amount : jsstring) : Prop :=
  exists c remainder, amount = c :: remainder /\ isDigit c = true.

End Scaler.
Import Scaler.


(** ** Sample sessions *)

Module Scenarios.

Definition runOps (recipe : Recipe) (ops : list Op) (s : State) : State :=
  fold_left (fun s op => perform recipe op s) ops s.

Definition runClicks (recipe : Recipe) (ops : list Op) (s : State) : State :=
  fold_left (fun s op => click recipe op s) ops s.

Definition soup : Recipe :=
  {| steps := [js "Chop the onion and the chicken";
               js "Boil for 1 min";
               js "Simmer for 10 minutes";
               js "Season the chicken with salt";
               js "Serve"];
     ingredients := [ {| name := js "Chicken Breast"; amount := js "200 g" |};
                      {| name := js "Salt"; amount := js "a pinch" |};
                      {| name := []; amount := js "1/2 cup" |} ] |}.

(** The timer of step 1 has run out. *)
Definition expired : State :=
  {| currentStepIndex := 1;
     timer := Some {| duration := 60; remaining := 0; isRunning := false;
                      stepIndex := 1 |};
     checkedItems := ∅; interval := false |}.

(** The timer of step 1 has one second left. *)
Definition lastSecond : State :=
  {| currentStepIndex := 1;
     timer := Some {| duration := 60; remaining := 1; isRunning := true;
                      stepIndex := 1 |};
     checkedItems := ∅; interval := true |}.

(** The timer of step 2 has been started, and step 4 is shown. *)
Definition awayFromTimer : State :=
  {| currentStepIndex := 4;
     timer := Some {| duration := 600; remaining := 600; isRunning := true;
                      stepIndex := 2 |};
     checkedItems := ∅; interval := true |}.

End Scenarios.
Import Scenarios.

(** ** The integers that the numbers of the code hold exactly *)

Module JsNumber.

(** [Number.MAX_SAFE_INTEGER].  Up to it every integer is a double, and
    the sums, products and quotients of the code that stay below it are
    computed without rounding; [toString] writes out every digit of an
    integer below 10^21, hence of every safe integer. *)
Definition MAX_SAFE_INTEGER : Z := 2 ^ 53 - 1.

End JsNumber.
Import JsNumber.

(** ** What cook mode shows *)

Module CookView.

(** [n.toString()] for an integer [n] below 10^21, where the digits are
    written out; from 10^21 on the code switches to the exponent
    notation, which is not modelled. *)
Definition toStringZ (n : Z) : jsstring := js (pretty n).

(** [s.padStart(n, c)] for a pad [c] of one unit. *)
Definition padStart (n : nat) (c : ascii) (s : jsstring) : jsstring :=
  repeat c (n - length s) ++ s.

(** [formatTime]: [Math.floor(totalSeconds / 60)] is the quotient rounded
    down, and [%] is the remainder with the sign of the dividend. *)
Definition formatTime (totalSeconds : Z) : jsstring :=
  let m := totalSeconds / 60 in
  let s := Z.rem totalSeconds 60 in
  toStringZ m ++ js ":" ++ padStart 2 "0" (toStringZ s).

(** [Math.ceil(detectedDuration / 60)], the minutes on the start button. *)
Definition startLabelMinutes (detectedDuration : Z) : Z :=
  - ((- detectedDuration) / 60).

(** [checkedItems.has(`${stepIdx}-${ingredientIndex}`)] *)
Definition isChecked (stepIdx : Z) (ingredientIndex : nat) (s : State) : bool :=
  bool_decide (checkKey stepIdx ingredientIndex ∈ checkedItems s).

(** The timer has a duration above zero. *)
Definition timerPositive (s : State) : Prop :=
  forall t, timer s = Some t -> 0 < duration t.

End CookView.
Import CookView.

(** ** Patterns and maps on the units *)

Module RegexMap.

(** The state of the matcher on the text that [f] has been applied to. *)
Definition mapState (f : ascii -> ascii) (x : mstate) : mstate :=
  MState (option_map (map f) (cap1 x)) (map f (rest x)).

(** No class of the pattern tells [f c] from [c]. *)
Fixpoint respects (f : ascii -> ascii) (r : regex) : Prop :=
  match r with
  | Empty => True
  | Chars p => forall c, p (f c) = p c
  | Seq r1 r2 | Alt r1 r2 => respects f r1 /\ respects f r2
  | Opt r1 | Star r1 | Group r1 => respects f r1
  end.

End RegexMap.
Import RegexMap.

(** ** The servings adjuster (components/RecipeDetailModal.tsx) *)

Module RecipeDetail.

(** [recipe.servings || 2], on the integers. *)
Definition initialServings (servings : Z) : Z :=
  if servings =? 0 then 2 else servings.

(** [setCurrentServings(prev => Math.max(1, Math.min(20, prev + delta)))] *)
Definition handleServingsChange (delta : Z) (prev : Z) : Z :=
  Z.max 1 (Z.min 20 (prev + delta)).

(** The two buttons of the adjuster.  The minus button is disabled when
    [currentServings <= 1]; a disabled button does not call its handler. *)
Inductive Button : Type := Minus | Plus.

Definition press (b : Button) (currentServings : Z) : Z :=
  match b with
  | Minus =>
      if currentServings <=? 1 then currentServings
      else handleServingsChange (-1) currentServings
  | Plus => handleServingsChange 1 currentServings
  end.

Definition pressAll (bs : list Button) (currentServings : Z) : Z :=
  fold_left (fun s b => press b s) bs currentServings.

End RecipeDetail.

(** ** The handlers of the application (App.tsx) and of the planner *)

Module App.

Record Nutrition : Type :=
  { protein : jsstring; carbs : jsstring; fat : jsstring; fiber : jsstring }.

(** [Recipe] of types.ts. *)
Record Recipe : Type :=
  { id : jsstring;
    name : jsstring;
    description : jsstring;
    calories : jsstring;
    prepTime : jsstring;
    cookTime : jsstring;
    difficulty : jsstring;
    servings : Z;
    ingredients : list CookMode.Ingredient;
    steps : list jsstring;
    tags : list jsstring;
    nutrition : option Nutrition;
    drinkPairing : option jsstring }.

Inductive DayOfWeek : Type :=
  Monday | Tuesday | Wednesday | Thursday | Friday | Saturday | Sunday.

Inductive MealType : Type := Breakfast | Lunch | Dinner.

Inductive ViewMode : Type := generated | saved | planner.

#[global] Instance DayOfWeek_eq_dec : EqDecision DayOfWeek.
Proof. solve_decision. Defined.

#[global] Instance MealType_eq_dec : EqDecision MealType.
Proof. solve_decision. Defined.

Definition dayNumber (d : DayOfWeek) : nat :=
  match d with
  | Monday => 0 | Tuesday => 1 | Wednesday => 2 | Thursday => 3
  | Friday => 4 | Saturday => 5 | Sunday => 6
  end%nat.

Definition dayOfNumber (n : nat) : option DayOfWeek :=
  match n with
  | 0 => Some Monday | 1 => Some Tuesday | 2 => Some Wednesday
  | 3 => Some Thursday | 4 => Some Friday | 5 => Some Saturday
  | 6 => Some Sunday | _ => None
  end%nat.

Definition mealNumber (t : MealType) : nat :=
  match t with Breakfast => 0 | Lunch => 1 | Dinner => 2 end%nat.

Definition mealOfNumber (n : nat) : option MealType :=
  match n with
  | 0 => Some Breakfast | 1 => Some Lunch | 2 => Some Dinner | _ => None
  end%nat.

#[global] Instance DayOfWeek_countable : Countable DayOfWeek :=
  inj_countable dayNumber dayOfNumber
    (fun d => match d with
              | Monday | Tuesday | Wednesday | Thursday | Friday | Saturday
              | Sunday => eq_refl
              end).

#[global] Instance MealType_countable : Countable MealType :=
  inj_countable mealNumber mealOfNumber
    (fun t => match t with Breakfast | Lunch | Dinner => eq_refl end).

(** [MealPlan] of types.ts: the days that have an object, and in each
    the meal types that have a recipe. *)
Abbreviation MealPlan := (gmap DayOfWeek (gmap MealType Recipe)).

(** [a === b] on strings. *)
Definition sameString (a b : jsstring) : bool := bool_decide (a = b).

(** [arr.includes(x)] on an array of strings. *)
Definition arrayIncludes (arr : list jsstring) (x : jsstring) : bool :=
  existsb (fun y => sameString y x) arr.

(** [String.prototype.trim] on the units below 256, where the white space
    and line terminators are the units of [\s]. *)
Fixpoint trimStart (s : jsstring) : jsstring :=
  match s with
  | c :: s' => if isSpace c then trimStart s' else s
  | [] => []
  end.

Definition trim (s : jsstring) : jsstring :=
  rev (trimStart (rev (trimStart s))).

(** [handleAddIngredient], on the [ingredients] cell. *)
Definition handleAddIngredient (val : jsstring) (ingredients : list jsstring)
    : list jsstring :=
  let trimmed := trim val in
  if negb (length trimmed =? 0)%nat && negb (arrayIncludes ingredients trimmed)
  then ingredients ++ [trimmed]
  else ingredients.

(** [removeIngredient] *)
Definition removeIngredient (ing : jsstring) (ingredients : list jsstring)
    : list jsstring :=
  List.filter (fun i => negb (sameString i ing)) ingredients.

(** The two handlers that write the [ingredients] cell, each called
    from an event of its own, and the cell after a sequence of events
    from the initial empty list. *)
Inductive IngredientAction : Type :=
| AddIngredient (val : jsstring)
| RemoveIngredient (ing : jsstring).

Definition ingredientStep (ingredients : list jsstring)
    (a : IngredientAction) : list jsstring :=
  match a with
  | AddIngredient val => handleAddIngredient val ingredients
  | RemoveIngredient ing => removeIngredient ing ingredients
  end.

Definition ingredientsAfter (actions : list IngredientAction)
    : list jsstring :=
  fold_left ingredientStep actions [].

(** [savedRecipes.some(r => r.id === recipe.id)] *)
Definition isSaved (savedRecipes : list Recipe) (recipe : Recipe) : bool :=
  existsb (fun r => sameString (id r) (id recipe)) savedRecipes.

(** [toggleSaveRecipe], on the [savedRecipes] cell; the same list is
    written to the local storage. *)
Definition toggleSaveRecipe (recipe : Recipe) (savedRecipes : list Recipe)
    : list Recipe :=
  if isSaved savedRecipes recipe
  then List.filter (fun r => negb (sameString (id r) (id recipe))) savedRecipes
  else savedRecipes ++ [recipe].

(** [toggleFilter] *)
Definition toggleFilter (filter : jsstring) (prev : list jsstring)
    : list jsstring :=
  if arrayIncludes prev filter
  then List.filter (fun f => negb (sameString f filter)) prev
  else prev ++ [filter].

(** The callback of the filter in [getDisplayRecipes]. *)
Definition hasAllTags (activeFilters : list jsstring) (recipe : Recipe)
    : bool :=
  let recipeTags := map toLowerCase (tags recipe) in
  forallb (fun filter => arrayIncludes recipeTags (toLowerCase filter))
          activeFilters.

(** [getDisplayRecipes] *)
Definition getDisplayRecipes (viewMode : ViewMode)
    (recipes savedRecipes : list Recipe) (activeFilters : list jsstring)
    : list Recipe :=
  let sourceList :=
    match viewMode with generated => recipes | _ => savedRecipes end in
  if (length activeFilters =? 0)%nat then sourceList
  else List.filter (hasAllTags activeFilters) sourceList.

(** [mealPlan[day]?.[mealType]], the read of the planner. *)
Definition plannedRecipe (mealPlan : MealPlan) (day : DayOfWeek)
    (type : MealType) : option Recipe :=
  match mealPlan !! day with
  | Some meals => meals !! type
  | None => None
  end.

(** [handleUpdateMealPlan], on the [mealPlan] cell; [None] for [recipe]
    is [null], and [None] for the result is the TypeError of an update
    through an absent day.  The copy of the plan is shallow: the object
    of the day is the one of the previous plan, which the handler never
    reads again. *)
Definition handleUpdateMealPlan (day : DayOfWeek) (type : MealType)
    (recipe : option Recipe) (mealPlan : MealPlan) : option MealPlan :=
  let newPlan : MealPlan :=
    match mealPlan !! day with
    | Some _ => mealPlan
    | None => <[day := ∅]> mealPlan
    end in
  match recipe with
  | None =>
      match newPlan !! day with
      | Some meals =>
          let meals' := delete type meals in
          if (size meals' =? 0)%nat then Some (delete day newPlan)
          else Some (<[day := meals']> newPlan)
      | None => Some newPlan
      end
  | Some r =>
      match newPlan !! day with
      | Some meals => Some (<[day := <[type := r]> meals]> newPlan)
      | None => None
      end
  end.

(** [savedRecipes.find(r => r.id === recipeId)] and the update of
    [handleDrop] (components/MealPlanner.tsx), with [onUpdatePlan] the
    handler above. *)
Definition handleDrop (recipeId : jsstring) (day : DayOfWeek)
    (type : MealType) (savedRecipes : list Recipe) (mealPlan : MealPlan)
    : option MealPlan :=
  match List.find (fun r => sameString (id r) recipeId) savedRecipes with
  | Some recipe => handleUpdateMealPlan day type (Some recipe) mealPlan
  | None => Some mealPlan
  end.

(** The string is empty or starts with a unit that is not white space. *)
Definition headNotSpace (s : jsstring) : Prop :=
  match s with
  | [] => True
  | c :: _ => isSpace c = false
  end.

(** No entry twice, no empty entry, every entry trimmed. *)
Definition cleanList (l : list jsstring) : Prop :=
  NoDup l /\ forall x, In x l -> x <> [] /\ trim x = x.

(** No day of the plan has an object without a meal. *)
Definition noEmptyDay (mealPlan : MealPlan) : Prop :=
  forall day meals, mealPlan !! day = Some meals -> meals <> ∅.

End App.

(** ** The ids of the generated recipes (services/geminiService.ts) *)

Module GeminiService.

(** [{ ...r, id }] *)
Definition withId (r : App.Recipe) (newId : jsstring) : App.Recipe :=
  {| App.id := newId;
     App.name := App.name r;
     App.description := App.description r;
     App.calories := App.calories r;
     App.prepTime := App.prepTime r;
     App.cookTime := App.cookTime r;
     App.difficulty := App.difficulty r;
     App.servings := App.servings r;
     App.ingredients := App.ingredients r;
     App.steps := App.steps r;
     App.tags := App.tags r;
     App.nutrition := App.nutrition r;
     App.drinkPairing := App.drinkPairing r |}.

(** [`recipe-${Date.now()}-${index}`], for the reading [now] of the
    clock. *)
Definition recipeId (now : N) (index : nat) : jsstring :=
  js "recipe-" ++ js (pretty now) ++ js "-" ++ js (pretty index).

(** [recipes.map((r, index) => ({ ...r, id: ... }))], the last step of
    [generateRecipes]; [clock index] is what [Date.now()] returns in the
    call for the element at [index]. *)
Definition addIds (clock : nat -> N) (recipes : list App.Recipe)
    : list App.Recipe :=
  imap (fun index r => withId r (recipeId (clock index) index)) recipes.

End GeminiService.

(** ** Sample recipes of the cookbook *)

Module Samples.

Definition sampleRecipe (i n : string) (t : list string) : App.Recipe :=
  {| App.id := js i;
     App.name := js n;
     App.description := js "A sample";
     App.calories := js "450 kcal";
     App.prepTime := js "10 mins";
     App.cookTime := js "20 mins";
     App.difficulty := js "Easy";
     App.servings := 2;
     App.ingredients := ingredients soup;
     App.steps := steps soup;
     App.tags := map js t;
     App.nutrition := None;
     App.drinkPairing := None |}.

Definition pasta : App.Recipe :=
  sampleRecipe "recipe-1-0" "Pasta" ["Vegetarian"; "Quick"].

Definition salad : App.Recipe :=
  sampleRecipe "recipe-1-1" "Salad" ["Vegan"; "Quick"].

Definition stew : App.Recipe :=
  sampleRecipe "recipe-2-0" "Stew" ["Gluten-Free"].

End Samples.
Import Samples.

(** * Properties *)

(** ** Facts on strings *)

Section StringFacts.

Lemma startsWith_spec (s prefix : jsstring) :
  startsWith s prefix = true <-> exists post, s = prefix ++ post.
Proof.
  revert s; induction prefix as [|p prefix IH]; intros s; simpl.
  - split; [intros _; now exists s | trivial].
  - destruct s as [|c s].
    + split; [discriminate | intros [post H]; discriminate].
    + rewrite andb_true_iff, Ascii.eqb_eq, IH. split.
      * intros [-> [post ->]]. now exists post.
      * intros [post H]. injection H as -> ->. split; [trivial | now exists post].
Qed.

Lemma includes_spec (s sub : jsstring) :
  includes s sub = true <-> exists pre post, s = pre ++ sub ++ post.
Proof.
  induction s as [|c s IH]; simpl.
  - rewrite orb_false_r, startsWith_spec. split.
    + intros [post H]. now exists [], post.
    + intros (pre & post & H). destruct pre; [now exists post|discriminate].
  - rewrite orb_true_iff, startsWith_spec, IH. split.
    + intros [[post H] | (pre & post & ->)].
      * now exists [], post.
      * now exists (c :: pre), post.
    + intros (pre & post & H). destruct pre as [|c' pre].
      * left. now exists post.
      * right. injection H as -> ->. now exists pre, post.
Qed.

Lemma includes_empty (s : jsstring) : includes s [] = true.
Proof. apply includes_spec. now exists [], s. Qed.

End StringFacts.

(** ** Facts on the tokenizer *)

Section SplitFacts.

Variable sep : ascii -> bool.

Local Abbreviation noSep := (Words.noSep sep).
Local Abbreviation sepAhead := (Words.sepAhead sep).
Local Abbreviation sepBehind := (Words.sepBehind sep).
Local Abbreviation tokenOf := (Words.tokenOf sep).
Local Abbreviation afterSep := (Words.afterSep sep).

Lemma afterSep_cons c s tok : afterSep s tok -> afterSep (c :: s) tok.
Proof.
  intros (pre & d & post & -> & H). now exists (c :: pre), d, post.
Qed.

Lemma all_sep_last c lead :
  Forall (fun c => sep c = true) (c :: lead) ->
  exists pre d, c :: lead = pre ++ [d] /\ sep d = true.
Proof.
  revert c; induction lead as [|e lead IH]; intros c H.
  - exists [], c. split; [reflexivity | now inversion H].
  - inversion H as [|? ? Hc Hrest]; subst.
    destruct (IH e Hrest) as (pre & d & E & Hd).
    exists (c :: pre), d. simpl. now rewrite E.
Qed.

Lemma afterSep_token s tok : tok <> [] -> afterSep s tok -> tokenOf s tok.
Proof.
  intros Hne (pre & d & post & -> & Hd & Hns & Ha). repeat split; auto.
  exists (pre ++ [d]), post. rewrite <- app_assoc. repeat split; auto.
  right. now exists pre, d.
Qed.

(** The first piece starts where the run being skipped ends; the other
    pieces start right after a separator. *)
Lemma splitGo_sound (s : jsstring) :
  forall inRun, exists piece pieces,
    splitGo sep inRun s = piece :: pieces /\
    (exists lead post,
        s = lead ++ piece ++ post /\ Forall (fun c => sep c = true) lead /\
        (inRun = false -> lead = []) /\ noSep piece /\ sepAhead post) /\
    (forall tok, In tok pieces -> afterSep s tok).
Proof.
  induction s as [|c s IH]; intros inRun.
  - exists [], []. split; [reflexivity|]. split.
    + exists [], []. repeat split; auto. constructor. now left.
    + intros tok [].
  - simpl. destruct (sep c) eqn:Hc.
    + destruct (IH true)
        as (piece & pieces & Heq & (lead & post & E & Hl & _ & Hp & Hpost) & Htl).
      destruct inRun.
      * exists piece, pieces. split; [exact Heq|]. split.
        -- exists (c :: lead), post. rewrite E. repeat split; auto. discriminate.
        -- intros tok Hin. apply afterSep_cons. now apply Htl.
      * exists [], (splitGo sep true s). split; [reflexivity|]. split.
        -- exists [], (c :: s). repeat split; auto.
           ++ constructor.
           ++ right. eauto.
        -- rewrite Heq. intros tok [<- | Hin].
           ++ destruct (all_sep_last c lead) as (pre & d & El & Hd);
                [now constructor|].
              exists pre, d, post. repeat split; auto.
              rewrite E. change (c :: lead ++ piece ++ post)
                with ((c :: lead) ++ piece ++ post).
              rewrite El, <- app_assoc. reflexivity.
           ++ apply afterSep_cons. now apply Htl.
    + destruct (IH false)
        as (piece & pieces & Heq & (lead & post & E & Hl & Hnil & Hp & Hpost) & Htl).
      rewrite Heq. exists (c :: piece), pieces. split; [reflexivity|].
      specialize (Hnil eq_refl). subst lead. simpl in E. subst s. split.
      * exists [], post. repeat split; auto. now constructor.
      * intros tok Hin. apply afterSep_cons. now apply Htl.
Qed.

(** Every piece that is not empty is a token. *)
Lemma splitClass_token (s tok : jsstring) :
  In tok (splitClass sep s) -> tok <> [] -> tokenOf s tok.
Proof.
  unfold splitClass.
  destruct (splitGo_sound s false)
    as (piece & pieces & -> & (lead & post & E & _ & Hnil & Hp & Hpost) & Htl).
  intros [<- | Hin] Hne.
  - rewrite (Hnil eq_refl) in E. repeat split; auto.
    exists [], post. repeat split; auto. now left.
  - apply afterSep_token; auto.
Qed.

(** A run without separators that a separator or the end follows is
    read as one piece. *)
Lemma splitGo_run (tok post : jsstring) :
  tok <> [] -> noSep tok -> sepAhead post ->
  forall inRun, exists pieces, splitGo sep inRun (tok ++ post) = tok :: pieces.
Proof.
  intros Hne Hns Hpost. induction Hns as [|c tok Hc Hns IH]; [easy|].
  intros inRun. simpl. rewrite Hc.
  destruct tok as [|c' tok].
  - simpl. destruct Hpost as [-> | (d & post' & -> & Hd)]; simpl.
    + now exists [].
    + rewrite Hd. eauto.
  - destruct (IH ltac:(discriminate) false) as (pieces & ->). eauto.
Qed.

Lemma splitGo_complete (tok post : jsstring) :
  tok <> [] -> noSep tok -> sepAhead post ->
  forall pre, sepBehind pre ->
    (forall inRun, In tok (splitGo sep inRun (pre ++ tok ++ post))) /\
    (pre <> [] -> In tok (tl (splitGo sep false (pre ++ tok ++ post)))).
Proof.
  intros Hne Hns Hpost. induction pre as [|c pre IH]; intros Hb.
  - split; [|easy]. intros inRun. simpl.
    destruct (splitGo_run tok post Hne Hns Hpost inRun) as (pieces & ->).
    now left.
  - assert (Hpre : sepBehind pre).
    { destruct Hb as [? | (pre' & d & E & Hd)]; [discriminate|].
      destruct pre' as [|e pre']; simpl in E; injection E as -> ->.
      - now left.
      - right. eauto. }
    destruct (IH Hpre) as [IH1 IH2]. simpl. destruct (sep c) eqn:Hc.
    + split.
      * intros [|]; [apply IH1 | right; apply IH1].
      * intros _. apply IH1.
    + assert (Hnn : pre <> []).
      { intros ->. destruct Hb as [? | (pre' & d & E & Hd)]; [discriminate|].
        destruct pre' as [|e [|? ?]]; simpl in E; try discriminate.
        injection E as ->. congruence. }
      specialize (IH2 Hnn).
      destruct (splitGo sep false (pre ++ tok ++ post)) as [|piece pieces];
        [destruct IH2|].
      split; [intros _; right; exact IH2 | intros _; exact IH2].
Qed.

(** Every token is one of the pieces. *)
Lemma token_splitClass (s tok : jsstring) :
  tokenOf s tok -> In tok (splitClass sep s).
Proof.
  intros (Hne & Hns & pre & post & -> & Hb & Ha).
  now apply splitGo_complete.
Qed.

End SplitFacts.

(** ** The step-ingredient matcher *)

Section Matcher.

Lemma occursIn_includes (sub text : jsstring) :
  includes (toLowerCase text) (toLowerCase sub) = true <-> occursIn sub text.
Proof. apply includes_spec. Qed.

(** The callback of the filter decides the matching rule. *)
Lemma mentions_referenced (text : jsstring) (ing : Ingredient) :
  mentions text ing = true <-> referenced text ing.
Proof.
  unfold mentions, referenced.
  destruct (includes (toLowerCase text) (toLowerCase (name ing))) eqn:Hfull.
  - split; [intros _; left; now apply occursIn_includes | reflexivity].
  - rewrite existsb_exists. split.
    + intros (part & Hin & Hpart). apply andb_true_iff in Hpart as [Hlen Hocc].
      apply Nat.leb_le in Hlen. right. exists part. split; [|split; [exact Hlen|]].
      * apply splitClass_token; [exact Hin|]. intros ->. simpl in Hlen. lia.
      * now apply occursIn_includes.
    + intros [Hocc | (tok & Htok & Hlen & Hocc)].
      * apply occursIn_includes in Hocc. congruence.
      * exists tok. split; [now apply token_splitClass|].
        apply andb_true_iff. split; [now apply Nat.leb_le|].
        now apply occursIn_includes.
Qed.

Lemma stepIngredients_In (text : jsstring) (ings : list Ingredient)
    (idx : nat) (ing : Ingredient) :
  In (indexed idx ing) (stepIngredients text ings) <->
  ings !! idx = Some ing /\ mentions text ing = true.
Proof.
  unfold stepIngredients. rewrite filter_In, <- list_elem_of_In.
  rewrite elem_of_lookup_imap. simpl. split.
  - intros [(i & x & E & Hx) Hm]. injection E as -> ->. auto.
  - intros [Hx Hm]. split; [now exists idx, ing | exact Hm].
Qed.

Lemma filter_sublist {A} (f : A -> bool) (l : list A) :
  sublist (List.filter f l) l.
Proof.
  induction l as [|x l IH]; simpl; [constructor|].
  destruct (f x); now constructor.
Qed.

End Matcher.

(** C3.  For every step text and ingredient list, an ingredient tagged
    with index [idx] is returned exactly when it stands at [idx] in the
    list and the step refers to it: its full name occurs in the step
    text, case ignored, or a token of its name (split on white space and
    hyphens) of length 4 or more does.  The result is a sublist of the
    ingredients tagged with their indices, so the original order is kept. *)
Theorem stepIngredients_exact (text : jsstring) (ings : list Ingredient) :
  (forall idx ing,
      In (indexed idx ing) (stepIngredients text ings) <->
      ings !! idx = Some ing /\ referenced text ing) /\
  sublist (stepIngredients text ings) (imap indexed ings).
Proof.
  split.
  - intros idx ing. rewrite <- mentions_referenced. apply stepIngredients_In.
  - apply filter_sublist.
Qed.

(** C10.  An ingredient whose name is the empty string is returned for
    every step text: the full-name test is an inclusion, and the empty
    string is included in every string. *)
Theorem empty_name_always_matches (text : jsstring) (ings : list Ingredient)
    (idx : nat) (ing : Ingredient) :
  ings !! idx = Some ing -> name ing = [] ->
  In (indexed idx ing) (stepIngredients text ings).
Proof.
  intros Hidx Hname. apply stepIngredients_In. split; [exact Hidx|].
  unfold mentions. rewrite Hname. simpl. now rewrite includes_empty.
Qed.

Lemma empty_name_always_matches_witness :
  In (indexed 2 {| name := []; amount := js "1/2 cup" |})
     (stepIngredients (js "Add the broth") (ingredients soup)).
Proof.
  apply (empty_name_always_matches (js "Add the broth") (ingredients soup) 2
           {| name := []; amount := js "1/2 cup" |}).
  - reflexivity.
  - reflexivity.
Defined.

(** The samples of the matcher: both ingredients for "Season the chicken
    with salt", none of the two for "Add the broth". *)
Example stepIngredients_samples :
  map originalIndex
      (stepIngredients (js "Season the chicken with salt")
                       (take 2 (ingredients soup))) = [0%nat; 1%nat] /\
  stepIngredients (js "Add the broth") (take 2 (ingredients soup)) = [].
Proof. vm_compute. auto. Qed.

(** ** Facts on numbers *)

Section NumberFacts.

Lemma digitValue_nonneg (c : ascii) : isDigit c = true -> 0 <= digitValue c <= 9.
Proof.
  unfold isDigit, inRange, digitValue. intros H.
  apply andb_true_iff in H as [H1 H2].
  apply N.leb_le in H1, H2. lia.
Qed.

Lemma decimalFrom_nonneg (s : jsstring) :
  Forall (fun c => isDigit c = true) s ->
  forall acc, 0 <= acc -> 0 <= decimalFrom acc s.
Proof.
  induction 1 as [|c s Hc _ IH]; intros acc Hacc; simpl; [exact Hacc|].
  apply IH. apply digitValue_nonneg in Hc. lia.
Qed.

Lemma takeDigits_digits (s : jsstring) :
  Forall (fun c => isDigit c = true) (takeDigits s).
Proof.
  induction s as [|c s IH]; simpl; [constructor|].
  destruct (isDigit c) eqn:Hc; now constructor.
Qed.

Lemma decimal_takeDigits_nonneg (s : jsstring) : 0 <= decimal (takeDigits s).
Proof. apply decimalFrom_nonneg; [apply takeDigits_digits | lia]. Qed.

Lemma inject_Z_nonneg (z : Z) : 0 <= z -> (0 <= inject_Z z)%Q.
Proof. intros H. change 0%Q with (inject_Z 0). now rewrite <- Zle_Qle. Qed.

Lemma parseFloat_nonneg (s : jsstring) (q : Q) :
  parseFloat s = Some q -> (0 <= q)%Q.
Proof.
  unfold parseFloat.
  set (ip := takeDigits s).
  set (fp := match dropDigits s with
             | c :: s' => if (code c =? 46)%N then takeDigits s' else []
             | [] => []
             end).
  assert (Hip : 0 <= decimal ip) by apply decimal_takeDigits_nonneg.
  assert (Hfp : 0 <= decimal fp).
  { subst fp. destruct (dropDigits s) as [|c s']; [easy|].
    destruct (code c =? 46)%N; [apply decimal_takeDigits_nonneg | easy]. }
  assert (Hq : (0 <= inject_Z (decimal ip)
                     + inject_Z (decimal fp) / inject_Z (10 ^ Z.of_nat (length fp)))%Q).
  { apply Qle_trans with (0 + 0)%Q; [easy|].
    apply Qplus_le_compat; [now apply inject_Z_nonneg|].
    apply Qmult_le_0_compat; [now apply inject_Z_nonneg|].
    apply Qinv_le_0_compat, inject_Z_nonneg. lia. }
  destruct ip, fp; intros E; try discriminate; now injection E as <-.
Qed.

Lemma floorTimes_nonneg (val : jsstring) (k z : Z) :
  0 <= k -> floorTimes val k = Some z -> 0 <= z.
Proof.
  unfold floorTimes. intros Hk.
  destruct (parseFloat val) as [q|] eqn:Hq; [|discriminate].
  intros E. injection E as <-. apply parseFloat_nonneg in Hq.
  assert (H : (0 <= q * inject_Z k)%Q).
  { apply Qmult_le_0_compat; [exact Hq | now apply inject_Z_nonneg]. }
  apply Qfloor_resp_le in H. exact H.
Qed.

(** The extractor never returns a negative number of seconds. *)
Lemma extractTimeInSeconds_nonneg (text : jsstring) (d : Z) :
  extractTimeInSeconds text = Some d -> 0 <= d.
Proof.
  unfold extractTimeInSeconds.
  destruct (exec minuteRe text) as [m|].
  - destruct (cap1 m); [apply floorTimes_nonneg; lia | discriminate].
  - destruct (exec hourRe text) as [m|]; [|discriminate].
    destruct (cap1 m); [apply floorTimes_nonneg; lia | discriminate].
Qed.

End NumberFacts.

(** ** The cook-mode session *)

Section Session.

Variable recipe : Recipe.

Lemma commit_same (old new : State) :
  effectDep old = effectDep new -> commit old new = new.
Proof. intros H. unfold commit. now rewrite bool_decide_eq_true_2. Qed.

Lemma commit_timer (old new : State) : timer (commit old new) = timer new.
Proof.
  unfold commit, timerEffect. case_bool_decide; [reflexivity|].
  destruct (timer new) as [t|] eqn:Ht; [|now rewrite <- Ht].
  destruct (isRunning t && (0 <? remaining t)); simpl; now rewrite Ht.
Qed.

Lemma commit_step (old new : State) :
  currentStepIndex (commit old new) = currentStepIndex new.
Proof.
  unfold commit, timerEffect. case_bool_decide; [reflexivity|].
  destruct (timer new) as [t|]; [|reflexivity].
  now destruct (isRunning t && (0 <? remaining t)).
Qed.

Lemma commit_checked (old new : State) :
  checkedItems (commit old new) = checkedItems new.
Proof.
  unfold commit, timerEffect. case_bool_decide; [reflexivity|].
  destruct (timer new) as [t|]; [|reflexivity].
  now destruct (isRunning t && (0 <? remaining t)).
Qed.

Lemma tickUpdate_inBounds (t t' : Timer) :
  0 <= remaining t <= duration t -> tickUpdate (Some t) = Some t' ->
  0 <= remaining t' <= duration t'.
Proof.
  unfold tickUpdate. intros Hb.
  destruct (isRunning t); simpl.
  - destruct (remaining t <=? 1) eqn:Hr; intros [= <-]; simpl; lia.
  - now intros [= <-].
Qed.

Lemma startTimer_timer (s : State) :
  timer (startTimer recipe s) = timer s \/
  exists d, detectedDuration recipe s = Some d /\ 0 < d /\
    timer (startTimer recipe s) =
    Some {| duration := d; remaining := d; isRunning := true;
            stepIndex := currentStepIndex s |}.
Proof.
  unfold startTimer. destruct (detectedDuration recipe s) as [d|] eqn:Hd; [|now left].
  destruct (d =? 0) eqn:Hz; [now left|]. right. exists d.
  split; [reflexivity|]. split; [|now rewrite commit_timer].
  assert (0 <= d); [|lia].
  unfold detectedDuration in Hd. destruct (currentStepText recipe s); [|discriminate].
  now apply extractTimeInSeconds_nonneg in Hd.
Qed.

(** The timer that an operation leaves. *)
Lemma perform_timer (op : Op) (s : State) :
  timer (perform recipe op s) =
  match op with
  | Next | Prev | GoToTimerStep | ToggleIngredientCheck _ => timer s
  | StartTimer => timer (startTimer recipe s)
  | Tick => if interval s then tickUpdate (timer s) else timer s
  | ToggleTimer => toggleUpdate (timer s)
  | ResetTimer => resetUpdate (timer s)
  | StopTimer => None
  end.
Proof.
  destruct op; simpl; try reflexivity.
  - unfold handleNext. destruct (_ <? _); [now rewrite commit_timer | reflexivity].
  - unfold handlePrev. destruct (_ <? _); [now rewrite commit_timer | reflexivity].
  - unfold tick. destruct (interval s); [now rewrite commit_timer | reflexivity].
  - unfold toggleTimer. now rewrite commit_timer.
  - unfold resetTimer. now rewrite commit_timer.
  - unfold stopTimer. now rewrite commit_timer.
  - unfold goToTimerStep. destruct (timer s) eqn:Ht; [|now rewrite Ht].
    now rewrite commit_timer.
  - unfold toggleIngredientCheck. now rewrite commit_timer.
Qed.

Lemma perform_inBounds (op : Op) (s : State) :
  timerInBounds s -> timerInBounds (perform recipe op s).
Proof.
  unfold timerInBounds. intros Hs t'. rewrite perform_timer. destruct op; auto.
  - destruct (startTimer_timer s) as [-> | (d & _ & Hd & ->)]; [auto|].
    intros [= <-]. simpl. lia.
  - destruct (interval s); [|auto].
    destruct (timer s) as [t|] eqn:Ht; [|discriminate].
    apply tickUpdate_inBounds. now apply Hs.
  - destruct (timer s) as [t|] eqn:Ht; [|discriminate].
    intros [= <-]. simpl. now apply Hs.
  - destruct (timer s) as [t|] eqn:Ht; [|discriminate].
    intros [= <-]. simpl. specialize (Hs t eq_refl). lia.
  - discriminate.
Qed.

Lemma reachable_inBounds (s : State) : reachable recipe s -> timerInBounds s.
Proof.
  induction 1 as [|op s _ IH]; [intros t; discriminate|].
  now apply perform_inBounds.
Qed.

End Session.

(** ** The sample sessions *)

Section SampleSessions.

Lemma reachable_runOps (recipe : Recipe) (ops : list Op) (s : State) :
  reachable recipe s -> reachable recipe (runOps recipe ops s).
Proof.
  revert s. induction ops as [|op ops IH]; intros s Hs; [exact Hs|].
  apply IH. now constructor.
Qed.

Lemma reachableByClicks_runClicks (recipe : Recipe) (ops : list Op) (s : State) :
  reachableByClicks recipe s -> reachableByClicks recipe (runClicks recipe ops s).
Proof.
  revert s. induction ops as [|op ops IH]; intros s Hs; [exact Hs|].
  apply IH. now constructor.
Qed.

Lemma reachableByClicks_expired : reachableByClicks soup expired.
Proof.
  replace expired
    with (runClicks soup (Next :: StartTimer :: repeat Tick 60) initial)
    by (vm_compute; reflexivity).
  exact (reachableByClicks_runClicks soup _ initial (clicks_initial soup)).
Qed.

Lemma reachable_expired : reachable soup expired.
Proof.
  replace expired
    with (runOps soup (Next :: StartTimer :: repeat Tick 60) initial)
    by (vm_compute; reflexivity).
  exact (reachable_runOps soup _ initial (reachable_initial soup)).
Qed.

Lemma reachableByClicks_lastSecond : reachableByClicks soup lastSecond.
Proof.
  replace lastSecond
    with (runClicks soup (Next :: StartTimer :: repeat Tick 59) initial)
    by (vm_compute; reflexivity).
  exact (reachableByClicks_runClicks soup _ initial (clicks_initial soup)).
Qed.

Lemma reachableByClicks_awayFromTimer : reachableByClicks soup awayFromTimer.
Proof.
  replace awayFromTimer
    with (runClicks soup [Next; Next; StartTimer; Next; Next] initial)
    by (vm_compute; reflexivity).
  exact (reachableByClicks_runClicks soup _ initial (clicks_initial soup)).
Qed.

End SampleSessions.



(** C5.  In every state that the session reaches, whatever operation
    comes next, the timer left by it has [0 <= remaining <= duration].
    When the timer is at 0, a tick leaves it at 0, and the only
    operations after which it is not the same timer at 0 are the reset,
    which puts [remaining] back to [duration], the stop, which leaves no
    timer, and the start, which puts a new timer in its place. *)
Theorem timer_stays_in_bounds (recipe : Recipe) (s : State) (op : Op) :
  reachable recipe s ->
  timerInBounds (perform recipe op s) /\
  forall t, timer s = Some t -> remaining t = 0 ->
    (exists t', timer (perform recipe Tick s) = Some t' /\ remaining t' = 0) /\
    match timer (perform recipe op s) with
    | None => op = StopTimer
    | Some t' =>
        (remaining t' = 0 /\ duration t' = duration t /\
         stepIndex t' = stepIndex t) \/
        (op = ResetTimer /\
         t' = {| duration := duration t; remaining := duration t;
                 isRunning := false; stepIndex := stepIndex t |}) \/
        (op = StartTimer /\
         exists d, detectedDuration recipe s = Some d /\
           t' = {| duration := d; remaining := d; isRunning := true;
                   stepIndex := currentStepIndex s |})
    end.
Proof.
  intros Hreach. split.
  - now apply perform_inBounds, (reachable_inBounds recipe).
  - intros t Ht Hzero.
    assert (Htick : exists t', (if interval s then tickUpdate (Some t) else Some t)
                               = Some t' /\ remaining t' = 0 /\
                               duration t' = duration t /\
                               stepIndex t' = stepIndex t).
    { destruct (interval s); [|now exists t].
      unfold tickUpdate. destruct (isRunning t); simpl; [|now exists t].
      rewrite Hzero. simpl. eauto. }
    destruct Htick as (t1 & Et1 & Ht1).
    split.
    + rewrite perform_timer, Ht. exists t1. tauto.
    + rewrite perform_timer.
      destruct op; rewrite ?Ht.
      * left. auto.
      * left. auto.
      * destruct (startTimer_timer recipe s) as [-> | (d & Hd & _ & ->)].
        -- rewrite Ht. left. auto.
        -- right. right. split; [reflexivity|]. now exists d.
      * rewrite Et1. left. exact Ht1.
      * simpl. left. auto.
      * simpl. right. left. auto.
      * reflexivity.
      * left. auto.
      * left. auto.
Qed.

Lemma timer_stays_in_bounds_witness :
  timerInBounds (perform soup ResetTimer expired) /\
  exists t', timer (perform soup Tick expired) = Some t' /\ remaining t' = 0.
Proof.
  split.
  - exact (proj1 (timer_stays_in_bounds soup expired ResetTimer
                    reachable_expired)).
  - exact (proj1 (proj2 (timer_stays_in_bounds soup expired Tick
                           reachable_expired)
                    {| duration := 60; remaining := 0; isRunning := false;
                       stepIndex := 1 |} eq_refl eq_refl)).
Defined.

(** C2, amended.  The pause/resume operation keeps a missing timer missing
    and flips the running flag of any timer, whatever its [remaining];
    nothing else of the session changes.  On an expired timer the flag
    becomes true again, but [remaining] stays 0, the interval stays
    cleared, so that no tick follows, and the page does not offer the
    button, so that a click leaves the session as it is. *)
Theorem toggleTimer_flips_running (recipe : Recipe) (s : State) :
  (timer s = None -> toggleTimer s = s) /\
  (forall t, timer s = Some t ->
     timer (toggleTimer s) =
     Some {| duration := duration t; remaining := remaining t;
             isRunning := negb (isRunning t); stepIndex := stepIndex t |} /\
     currentStepIndex (toggleTimer s) = currentStepIndex s /\
     checkedItems (toggleTimer s) = checkedItems s /\
     (remaining t = 0 ->
      interval (toggleTimer s) = false /\
      tick (toggleTimer s) = toggleTimer s /\
      click recipe ToggleTimer s = s)).
Proof.
  split.
  - intros Hnone. unfold toggleTimer. rewrite commit_same.
    + destruct s as [i tm c iv]. simpl in *. now subst tm.
    + unfold effectDep, setTimer. simpl. now rewrite Hnone.
  - intros t Ht. unfold toggleTimer.
    rewrite commit_timer, commit_step, commit_checked. simpl. rewrite Ht. simpl.
    repeat split.
    + unfold commit, effectDep, timerEffect. simpl. rewrite Ht. simpl.
      rewrite bool_decide_eq_false_2 by (destruct (isRunning t); discriminate).
      rewrite H. now rewrite andb_false_r.
    + assert (Hiv : interval (commit s (setTimer toggleUpdate s)) = false).
      { unfold commit, effectDep, timerEffect. simpl. rewrite Ht. simpl.
        rewrite bool_decide_eq_false_2 by (destruct (isRunning t); discriminate).
        rewrite H. now rewrite andb_false_r. }
      unfold tick. now rewrite Hiv.
    + unfold click. simpl. rewrite Ht, H. reflexivity.
Qed.

Lemma toggleTimer_flips_running_witness :
  toggleTimer initial = initial /\
  click soup ToggleTimer expired = expired /\
  timer (toggleTimer awayFromTimer) =
  Some {| duration := 600; remaining := 600; isRunning := false;
          stepIndex := 2 |}.
Proof.
  split; [|split].
  - apply (proj1 (toggleTimer_flips_running soup initial)). reflexivity.
  - refine (proj2 (proj2 (proj2 (proj2 (proj2
      (proj2 (toggleTimer_flips_running soup expired)
         {| duration := 60; remaining := 0; isRunning := false;
            stepIndex := 1 |} _))) _))).
    + reflexivity.
    + reflexivity.
  - refine (proj1 (proj2 (toggleTimer_flips_running soup awayFromTimer)
      {| duration := 600; remaining := 600; isRunning := true; stepIndex := 2 |}
      _)).
    reflexivity.
Defined.

(** C2, as stated, fails: a session on the page reaches an expired timer,
    and the pause/resume operation then sets its running flag, so the
    state is not what it was. *)
Lemma toggleTimer_after_expiry_changes_state :
  reachableByClicks soup expired /\
  timer expired =
  Some {| duration := 60; remaining := 0; isRunning := false; stepIndex := 1 |} /\
  timer (toggleTimer expired) =
  Some {| duration := 60; remaining := 0; isRunning := true; stepIndex := 1 |} /\
  toggleTimer expired <> expired.
Proof.
  split; [exact reachableByClicks_expired|].
  split; [reflexivity|]. split; [reflexivity|].
  intros E. apply (f_equal timer) in E. discriminate E.
Qed.

(** ** Navigation *)

Section Navigation.

Variable recipe : Recipe.

Lemma handleNext_moved (s : State) :
  0 <= currentStepIndex s < Z.of_nat (length (steps recipe)) ->
  handleNext recipe s =
  setCurrentStepIndex
    (fun i => Z.min (i + 1) (Z.of_nat (length (steps recipe)) - 1)) s.
Proof.
  intros Hi. unfold handleNext, setCurrentStepIndex.
  destruct (currentStepIndex s <? Z.of_nat (length (steps recipe)) - 1) eqn:E.
  - rewrite commit_same by reflexivity. simpl. f_equal. lia.
  - destruct s as [i tm ck iv]. simpl in *. f_equal. lia.
Qed.

Lemma handlePrev_moved (s : State) :
  0 <= currentStepIndex s ->
  handlePrev s = setCurrentStepIndex (fun i => Z.max (i - 1) 0) s.
Proof.
  intros Hi. unfold handlePrev, setCurrentStepIndex.
  destruct (0 <? currentStepIndex s) eqn:E.
  - rewrite commit_same by reflexivity. simpl. f_equal. lia.
  - destruct s as [i tm ck iv]. simpl in *. f_equal. lia.
Qed.

(** A firing of the interval does not look at the step shown. *)
Lemma tick_setCurrentStepIndex (f : Z -> Z) (s : State) :
  tick (setCurrentStepIndex f s) = setCurrentStepIndex f (tick s).
Proof.
  unfold tick, commit, effectDep, timerEffect, setTimer, setCurrentStepIndex,
    setInterval.
  destruct s as [i tm ck iv]. simpl. destruct iv; [|reflexivity].
  case_bool_decide; [reflexivity|].
  destruct (tickUpdate tm) as [t|]; [|reflexivity].
  now destruct (isRunning t && (0 <? remaining t)).
Qed.

Lemma tick_step (s : State) : currentStepIndex (tick s) = currentStepIndex s.
Proof.
  unfold tick. destruct (interval s); [|reflexivity]. now rewrite commit_step.
Qed.

End Navigation.

(** ** Sessions driven by the page *)

Section Clicks.

Variable recipe : Recipe.

Ltac session_cases :=
  unfold pageInvariant, commit, effectDep, timerEffect, setTimer,
    setCurrentStepIndex, setCheckedItems, setInterval, tickUpdate,
    toggleUpdate, resetUpdate in *;
  simpl in *;
  repeat first
    [ progress simplify_eq/=
    | case_bool_decide
    | case_match ];
  repeat match goal with t : Timer |- _ => destruct t end;
  simpl in *;
  repeat match goal with b : bool |- _ => destruct b end;
  simpl in *;
  try (intuition (try lia; try congruence)).

Lemma pageInvariant_perform (op : Op) (s : State) :
  offered recipe op s = true -> pageInvariant s ->
  pageInvariant (perform recipe op s).
Proof.
  destruct s as [i tm ck iv]. destruct op; simpl.
  - intros _. unfold handleNext. session_cases.
  - intros _. unfold handlePrev. session_cases.
  - intros _ Hs. unfold startTimer.
    destruct (detectedDuration recipe _) as [d|] eqn:Hd; [|exact Hs].
    assert (0 <= d).
    { unfold detectedDuration in Hd. destruct (currentStepText recipe _); [|discriminate].
      now apply extractTimeInSeconds_nonneg in Hd. }
    destruct (d =? 0) eqn:Hz; [exact Hs|]. session_cases.
  - intros ->. unfold tick. session_cases.
  - unfold toggleTimer. session_cases.
  - unfold resetTimer. session_cases.
  - unfold stopTimer. session_cases.
  - unfold goToTimerStep. session_cases.
  - intros _. unfold toggleIngredientCheck. session_cases.
Qed.

Lemma click_pageInvariant (op : Op) (s : State) :
  pageInvariant s -> pageInvariant (click recipe op s).
Proof.
  intros Hs. unfold click. destruct (offered recipe op s) eqn:E; [|exact Hs].
  now apply pageInvariant_perform.
Qed.

(** In a session driven by the page the interval is live exactly while
    the timer runs, and a running timer has time left: the tick comes
    once per second while the timer is running with [remaining > 0], and
    at no other time. *)
Lemma reachableByClicks_pageInvariant (s : State) :
  reachableByClicks recipe s -> pageInvariant s.
Proof.
  induction 1 as [|op s _ IH]; [reflexivity|].
  now apply click_pageInvariant.
Qed.


(** The step shown is a step of the recipe, and so is the step of the
    timer, as soon as the recipe has a step. *)
Lemma reachable_stepsInRange (s : State) :
  steps recipe <> [] -> reachable recipe s -> stepsInRange recipe s.
Proof.
  intros Hne. assert (Hlen : 0 < Z.of_nat (length (steps recipe))).
  { destruct (steps recipe); [congruence | simpl; lia]. }
  induction 1 as [|op s _ [IHi IHt]].
  - split; [simpl; lia | intros t; discriminate].
  - split.
    + destruct op; simpl; try exact IHi.
      * unfold handleNext. destruct (_ <? _) eqn:E; [|exact IHi].
        rewrite commit_step. simpl. lia.
      * unfold handlePrev. destruct (_ <? _) eqn:E; [|exact IHi].
        rewrite commit_step. simpl. lia.
      * unfold startTimer. destruct (detectedDuration recipe s); [|exact IHi].
        destruct (_ =? _); [exact IHi | now rewrite commit_step].
      * now rewrite tick_step.
      * unfold toggleTimer. now rewrite commit_step.
      * unfold resetTimer. now rewrite commit_step.
      * unfold stopTimer. now rewrite commit_step.
      * unfold goToTimerStep. destruct (timer s) as [t|] eqn:Ht; [|exact IHi].
        rewrite commit_step. simpl. now apply IHt.
      * unfold toggleIngredientCheck. now rewrite commit_step.
    + intros t'. rewrite perform_timer. destruct op; try (apply IHt).
      * destruct (startTimer_timer recipe s) as [-> | (d & _ & _ & ->)];
          [apply IHt|]. now intros [= <-].
      * destruct (interval s); [|apply IHt].
        destruct (timer s) as [t|] eqn:Ht; [|discriminate].
        specialize (IHt t eq_refl). unfold tickUpdate.
        destruct (negb (isRunning t)); [now intros [= <-]|].
        destruct (remaining t <=? 1); now intros [= <-].
      * destruct (timer s) as [t|] eqn:Ht; [|discriminate].
        specialize (IHt t eq_refl). now intros [= <-].
      * destruct (timer s) as [t|] eqn:Ht; [|discriminate].
        specialize (IHt t eq_refl). now intros [= <-].
      * discriminate.
Qed.

End Clicks.

(** C8.  While a step of the recipe is shown, Next and Prev move the step
    index by one, clamped to [0, stepCount - 1], and change nothing else:
    the timer, with its duration, its remaining time, its running flag
    and its step, the checked set and the interval are as before.  So the
    interval fires on the timer after the move as it would have before. *)
Theorem navigation_moves_only_the_step (recipe : Recipe) (s : State) :
  0 <= currentStepIndex s < Z.of_nat (length (steps recipe)) ->
  movedTo (Z.min (currentStepIndex s + 1) (Z.of_nat (length (steps recipe)) - 1))
          s (handleNext recipe s) /\
  movedTo (Z.max (currentStepIndex s - 1) 0) s (handlePrev s) /\
  tick (handleNext recipe s) = handleNext recipe (tick s) /\
  tick (handlePrev s) = handlePrev (tick s).
Proof.
  intros Hi.
  rewrite !handleNext_moved, !handlePrev_moved, ?tick_step by
    (rewrite ?tick_step; lia).
  rewrite !tick_setCurrentStepIndex.
  unfold movedTo, setCurrentStepIndex. simpl. rewrite !tick_step. tauto.
Qed.

Lemma navigation_moves_only_the_step_witness :
  movedTo 3 awayFromTimer (handlePrev awayFromTimer) /\
  movedTo 4 awayFromTimer (handleNext soup awayFromTimer) /\
  tick (handlePrev awayFromTimer) = handlePrev (tick awayFromTimer).
Proof.
  destruct (navigation_moves_only_the_step soup awayFromTimer)
    as (Hnext & Hprev & _ & Htick).
  - simpl. lia.
  - exact (conj Hprev (conj Hnext Htick)).
Defined.

(** The timer of step 2 seen from step 4, in a session on the page: it
    is still the timer of step 2, and the next firing of the interval
    takes a second off. *)
Example timer_of_step_2_seen_from_step_4 :
  reachableByClicks soup awayFromTimer /\
  currentStepIndex awayFromTimer = 4 /\
  timer awayFromTimer =
  Some {| duration := 600; remaining := 600; isRunning := true;
          stepIndex := 2 |} /\
  timer (tick awayFromTimer) =
  Some {| duration := 600; remaining := 599; isRunning := true;
          stepIndex := 2 |}.
Proof.
  split; [exact reachableByClicks_awayFromTimer|].
  split; [reflexivity|]. split; reflexivity.
Qed.

(** ** The check list *)

(** X6.  Checking an ingredient twice leaves the session as it was: the
    check list, the step, the timer and the interval. *)
Lemma toggleIngredientCheck_twice (i : nat) (s : State) :
  toggleIngredientCheck i (toggleIngredientCheck i s) = s.
Proof.
  unfold toggleIngredientCheck. rewrite !commit_same by reflexivity.
  destruct s as [idx tm ck iv]. unfold setCheckedItems. simpl. f_equal.
  generalize (checkKey idx i) as key. intros key.
  destruct (decide (key ∈ ck)) as [Hin | Hout].
  - rewrite decide_False.
    + apply set_eq. intros x.
      rewrite elem_of_union, elem_of_difference, elem_of_singleton.
      destruct (decide (x = key)) as [-> | Hne]; tauto.
    + rewrite elem_of_difference, elem_of_singleton. tauto.
  - rewrite decide_True.
    + apply set_eq. intros x.
      rewrite elem_of_difference, elem_of_union, elem_of_singleton.
      destruct (decide (x = key)) as [-> | Hne]; tauto.
    + rewrite elem_of_union, elem_of_singleton. tauto.
Qed.

(** ** The matcher and the words of a pattern *)

Section RegexFacts.

Lemma progress_suffix (x y : mstate) (w : jsstring) :
  rest x = w ++ rest y -> consumed x y = w.
Proof.
  intros E. unfold consumed. rewrite E, length_app.
  replace (length w + length (rest y) - length (rest y))%nat
    with (length w) by lia.
  now rewrite take_app_length.
Qed.

Lemma iterate_sound (r : regex) (step : mstate -> list mstate) :
  (forall x y, In y (step x) -> exists w, rest x = w ++ rest y /\ Matches r w) ->
  forall fuel x y, In y (iterate step fuel x) ->
    exists w, rest x = w ++ rest y /\ Matches (Star r) w.
Proof.
  intros Hstep. induction fuel as [|fuel IH]; intros x y; simpl.
  - intros [<- | []]. exists []. split; [reflexivity | constructor].
  - rewrite in_app_iff, in_flat_map. intros [(z & Hz & Hy) | [<- | []]].
    + apply filter_In in Hz as [Hz _].
      destruct (Hstep _ _ Hz) as (w1 & E1 & M1).
      destruct (IH _ _ Hy) as (w2 & E2 & M2).
      exists (w1 ++ w2). split; [|now constructor].
      now rewrite E1, E2, app_assoc.
    + exists []. split; [reflexivity | constructor].
Qed.

(** Every state that [run] lists is reached by reading a word of the
    pattern. *)
Lemma run_sound (r : regex) :
  forall x y, In y (run r x) -> exists w, rest x = w ++ rest y /\ Matches r w.
Proof.
  induction r as [|p|r1 IH1 r2 IH2|r1 IH1 r2 IH2|r IH|r IH|r IH];
    intros x y; simpl.
  - intros [<- | []]. exists []. split; [reflexivity | constructor].
  - destruct (rest x) as [|c s'] eqn:E; [intros []|].
    destruct (p c) eqn:Hp; [|intros []].
    intros [<- | []]. exists [c]. split; [reflexivity | now constructor].
  - rewrite in_flat_map. intros (z & Hz & Hy).
    destruct (IH1 _ _ Hz) as (w1 & E1 & M1).
    destruct (IH2 _ _ Hy) as (w2 & E2 & M2).
    exists (w1 ++ w2). split; [|now constructor].
    now rewrite E1, E2, app_assoc.
  - rewrite in_app_iff. intros [H | H].
    + destruct (IH1 _ _ H) as (w & E & M). exists w. split; [exact E|].
      now apply MAltL.
    + destruct (IH2 _ _ H) as (w & E & M). exists w. split; [exact E|].
      now apply MAltR.
  - rewrite in_app_iff. intros [H | [<- | []]].
    + apply filter_In in H as [H _].
      destruct (IH _ _ H) as (w & E & M). exists w. split; [exact E|].
      now apply MOptSome.
    + exists []. split; [reflexivity | constructor].
  - apply iterate_sound. exact IH.
  - rewrite in_map_iff. intros (z & <- & Hz).
    destruct (IH _ _ Hz) as (w & E & M). exists w. split; [exact E|].
    now constructor.
Qed.

Lemma iterate_cap (step : mstate -> list mstate) :
  (forall x y, In y (step x) -> cap1 y = cap1 x) ->
  forall fuel x y, In y (iterate step fuel x) -> cap1 y = cap1 x.
Proof.
  intros Hstep. induction fuel as [|fuel IH]; intros x y; simpl.
  - now intros [<- | []].
  - rewrite in_app_iff, in_flat_map. intros [(z & Hz & Hy) | [<- | []]].
    + apply filter_In in Hz as [Hz _].
      rewrite (IH _ _ Hy). now apply Hstep.
    + reflexivity.
Qed.

(** A pattern without group leaves the capture as it is. *)
Lemma run_groupless (r : regex) :
  groupless r = true -> forall x y, In y (run r x) -> cap1 y = cap1 x.
Proof.
  induction r as [|p|r1 IH1 r2 IH2|r1 IH1 r2 IH2|r IH|r IH|r IH];
    simpl; intros Hg x y.
  - now intros [<- | []].
  - destruct (rest x) as [|c s']; [intros []|].
    destruct (p c); [|intros []]. now intros [<- | []].
  - apply andb_true_iff in Hg as [H1 H2].
    rewrite in_flat_map. intros (z & Hz & Hy).
    rewrite (IH2 H2 _ _ Hy). now apply IH1.
  - apply andb_true_iff in Hg as [H1 H2].
    rewrite in_app_iff. intros [H | H]; [now apply IH1 | now apply IH2].
  - rewrite in_app_iff. intros [H | [<- | []]]; [|reflexivity].
    apply filter_In in H as [H _]. now apply IH.
  - apply iterate_cap. now apply IH.
  - discriminate.
Qed.

Lemma run_shrinks (r : regex) (x y : mstate) :
  In y (run r x) -> (length (rest y) <= length (rest x))%nat.
Proof.
  intros H. destruct (run_sound r x y H) as (w & -> & _).
  rewrite length_app. lia.
Qed.

Lemma flat_map_agree {A B} (f g : A -> list B) (l : list A) :
  (forall a, In a l -> f a = g a) -> flat_map f l = flat_map g l.
Proof.
  induction l as [|a l IH]; intros H; simpl; [reflexivity|].
  rewrite (H a) by now left. f_equal. apply IH. intros b Hb. apply H. now right.
Qed.

Lemma filter_none {A} (f : A -> bool) (l : list A) :
  (forall a, f a = false) -> List.filter f l = [].
Proof.
  intros H. induction l as [|a l IH]; simpl; [reflexivity|]. now rewrite H.
Qed.

(** The fuel of [r*] is enough: one unit of fuel per unit left to read,
    and more fuel lists the same states. *)
Lemma iterate_fuel (r : regex) (fuel : nat) :
  forall x, (length (rest x) <= fuel)%nat ->
    iterate (run r) (S fuel) x = iterate (run r) fuel x.
Proof.
  induction fuel as [|fuel IH]; intros x Hx.
  - simpl. rewrite filter_none; [reflexivity|].
    intros y. unfold progress. apply Nat.ltb_ge. lia.
  - change (iterate (run r) (S (S fuel)) x)
      with (flat_map (iterate (run r) (S fuel))
              (List.filter (progress x) (run r x)) ++ [x]).
    change (iterate (run r) (S fuel) x)
      with (flat_map (iterate (run r) fuel)
              (List.filter (progress x) (run r x)) ++ [x]).
    f_equal. apply flat_map_agree. intros y Hy.
    apply filter_In in Hy as [_ Hy]. unfold progress in Hy.
    apply Nat.ltb_lt in Hy. apply IH. lia.
Qed.

Lemma run_star_fuel (r : regex) (x : mstate) (fuel : nat) :
  (length (rest x) <= fuel)%nat -> iterate (run r) fuel x = run (Star r) x.
Proof.
  simpl. induction 1 as [|fuel Hle IH]; [reflexivity|].
  now rewrite iterate_fuel.
Qed.

(** A match of [(r) u], where [u] has no group, captures a word of [r]. *)
Lemma run_group_then (r u : regex) (x y : mstate) :
  groupless u = true -> In y (run (Seq (Group r) u) x) ->
  exists w, cap1 y = Some w /\ Matches r w.
Proof.
  intros Hu. simpl. rewrite in_flat_map. intros (z & Hz & Hy).
  rewrite (run_groupless u Hu _ _ Hy).
  apply in_map_iff in Hz as (z' & <- & Hz').
  destruct (run_sound r _ _ Hz') as (w & E & M).
  exists w. simpl. split; [|exact M]. f_equal. now apply progress_suffix.
Qed.

(** A match found by [exec] is one that [run] lists at some index. *)
Lemma exec_run (r : regex) (s : jsstring) (m : mstate) :
  exec r s = Some m ->
  exists pre s', s = pre ++ s' /\ In m (run r (MState None s')).
Proof.
  induction s as [|c s IH]; simpl.
  - destruct (run r (MState None [])) as [|y ys] eqn:E; simpl; [discriminate|].
    intros [= <-]. exists [], []. rewrite E. split; [reflexivity | now left].
  - destruct (run r (MState None (c :: s))) as [|y ys] eqn:E; simpl.
    + intros H. destruct (IH H) as (pre & s' & -> & Hin).
      now exists (c :: pre), s'.
    + intros [= <-]. exists [], (c :: s). rewrite E.
      split; [reflexivity | now left].
Qed.

Lemma iterate_stop (step : mstate -> list mstate) (fuel : nat) (x : mstate) :
  In x (iterate step fuel x).
Proof.
  destruct fuel; simpl; [now left|]. apply in_app_iff. right. now left.
Qed.

(** Every word of the pattern that the text starts with is read by one of
    the states that [run] lists. *)
Lemma run_complete (r : regex) (w : jsstring) :
  Matches r w ->
  forall x tl, rest x = w ++ tl -> exists y, In y (run r x) /\ rest y = tl.
Proof.
  induction 1 as [|p c Hc|r1 r2 w1 w2 _ IH1 _ IH2|r1 r2 w _ IH|r1 r2 w _ IH
                 |r|r w _ IH|r|r w1 w2 M1 IH1 _ IH2|r w _ IH];
    intros x tl E.
  - exists x. split; [now left | exact E].
  - exists (MState (cap1 x) tl). simpl. rewrite E. simpl. rewrite Hc.
    split; [now left | reflexivity].
  - rewrite <- app_assoc in E.
    destruct (IH1 _ _ E) as (z & Hz & Ez).
    destruct (IH2 _ _ Ez) as (y & Hy & Ey).
    exists y. split; [|exact Ey]. simpl. apply in_flat_map. eauto.
  - destruct (IH _ _ E) as (y & Hy & Ey). exists y. simpl.
    rewrite in_app_iff. auto.
  - destruct (IH _ _ E) as (y & Hy & Ey). exists y. simpl.
    rewrite in_app_iff. auto.
  - exists x. simpl. rewrite in_app_iff. split; [right; now left | exact E].
  - destruct (IH _ _ E) as (y & Hy & Ey). simpl.
    destruct (progress x y) eqn:P.
    + exists y. rewrite in_app_iff, filter_In. auto.
    + exists x. rewrite in_app_iff. split; [right; now left|].
      unfold progress in P. apply Nat.ltb_ge in P.
      rewrite E, Ey, length_app in P.
      destruct w; [exact E | simpl in P; lia].
  - exists x. split; [apply iterate_stop | exact E].
  - destruct w1 as [|c w1]; [now apply IH2|].
    rewrite <- app_assoc in E.
    destruct (IH1 _ _ E) as (z & Hz & Ez).
    destruct (IH2 _ _ Ez) as (y & Hy & Ey).
    exists y. split; [|exact Ey].
    change (run (Star r) x) with (iterate (run r) (length (rest x)) x).
    assert (Hlen : (length (rest x) = S (length (rest z) + length w1))%nat).
    { rewrite E, Ez. simpl. rewrite !length_app. lia. }
    rewrite Hlen. simpl. rewrite in_app_iff. left.
    apply in_flat_map. exists z. split.
    + apply filter_In. split; [exact Hz|]. unfold progress.
      apply Nat.ltb_lt. lia.
    + rewrite run_star_fuel by lia. exact Hy.
  - destruct (IH _ _ E) as (y & Hy & Ey).
    exists (MState (Some (consumed x y)) (rest y)). simpl.
    split; [|exact Ey]. apply in_map_iff. now exists y.
Qed.

Lemma exec_here (r : regex) (s : jsstring) (y : mstate) (ys : list mstate) :
  run r (MState None s) = y :: ys -> exec r s = Some y.
Proof. intros E. destruct s; simpl; now rewrite E. Qed.

(** [exec] finds a match exactly when the text contains a word of the
    pattern. *)
Lemma exec_contains (r : regex) (text : jsstring) :
  (exists m, exec r text = Some m) <-> contains r text.
Proof.
  split.
  - intros (m & E). destruct (exec_run r text m E) as (pre & s' & -> & Hin).
    destruct (run_sound r _ _ Hin) as (w & Ew & M). simpl in Ew.
    exists pre, w, (rest m). now rewrite Ew.
  - intros (pre & w & post & -> & M).
    induction pre as [|c pre IH]; simpl.
    + destruct (run_complete r w M (MState None (w ++ post)) post eq_refl)
        as (y & Hy & _).
      destruct (run r (MState None (w ++ post))) as [|z zs] eqn:E;
        [destruct Hy|].
      exists z. now apply exec_here with zs.
    + destruct (head (run r (MState None (c :: pre ++ w ++ post)))); eauto.
Qed.

Lemma Matches_star_chars (p : ascii -> bool) (w : jsstring) :
  Matches (Star (Chars p)) w -> Forall (fun c => p c = true) w.
Proof.
  intros M. remember (Star (Chars p)) as r eqn:Er.
  induction M as [| | | | | | | |r' w1 w2 M1 _ M2 IH2|]; try discriminate.
  - constructor.
  - injection Er as ->. inversion M1; subst. constructor; auto.
Qed.

Lemma Matches_plus_digits (w : jsstring) :
  Matches (Plus (Chars isDigit)) w -> digits w.
Proof.
  unfold Plus. intros M. inversion M as [| |r1 r2 w1 w2 M1 M2| | | | | | |]; subst.
  inversion M1; subst. apply Matches_star_chars in M2.
  split; [discriminate | now constructor].
Qed.

Lemma canonicalize_hyphen (c : ascii) :
  Ascii.eqb (canonicalize c) (canonicalize "-") = true -> c = "-"%char.
Proof.
  destruct c as [[] [] [] [] [] [] [] []]; vm_compute; intros H;
    first [reflexivity | discriminate H].
Qed.

(** What group 1 of the two patterns can hold: a run of digits, or two
    runs with a hyphen between them. *)
Lemma Matches_numberOrRange (w : jsstring) :
  Matches numberOrRange w ->
  exists a, digits a /\ (w = a \/ exists b, digits b /\ w = a ++ js "-" ++ b).
Proof.
  unfold numberOrRange. intros M.
  inversion M as [| |r1 r2 a w2 Ma Mo| | | | | | |]; subst.
  apply Matches_plus_digits in Ma. exists a. split; [exact Ma|].
  inversion Mo as [| | | | |r|r w Mr| | |]; subst.
  - left. now rewrite app_nil_r.
  - right. inversion Mr as [| |r1 r2 h b Mh Mb| | | | | | |]; subst.
    apply Matches_plus_digits in Mb. exists b. split; [exact Mb|].
    inversion Mh as [|p c Hc| | | | | | | |]; subst.
    apply canonicalize_hyphen in Hc. now subst c.
Qed.

Lemma capture_shape (re u : regex) (text val : jsstring) :
  re = Seq number u -> groupless u = true ->
  matchGroup1 re text = Some val ->
  exists a, digits a /\
    (val = a \/ exists b, digits b /\ val = a ++ js "-" ++ b).
Proof.
  intros -> Hu. unfold matchGroup1.
  destruct (exec (Seq number u) text) as [m|] eqn:E; [|discriminate].
  intros Hcap. apply exec_run in E as (pre & s' & _ & Hin).
  apply run_group_then in Hin as (w & Hw & M); [|exact Hu].
  rewrite Hcap in Hw. injection Hw as ->.
  now apply Matches_numberOrRange.
Qed.

End RegexFacts.

(** ** The duration extractor *)

Section Extractor.

Lemma digit_not_hyphen (c : ascii) : isDigit c = true -> Ascii.eqb c "-" = false.
Proof.
  intros H. destruct (Ascii.eqb_spec c "-"); [subst c; discriminate H | reflexivity].
Qed.

Lemma digits_no_hyphen (a : jsstring) :
  Forall (fun c => isDigit c = true) a -> includes a (js "-") = false.
Proof.
  intros Ha. destruct (includes a (js "-")) eqn:E; [|reflexivity].
  apply includes_spec in E as (pre & post & ->).
  apply Forall_app in Ha as [_ Ha]. inversion Ha as [|c l Hc _]; subst.
  discriminate Hc.
Qed.

Lemma splitFirst_digits (a b : jsstring) :
  Forall (fun c => isDigit c = true) a -> splitFirst "-" (a ++ js "-" ++ b) = a.
Proof.
  change (js "-" ++ b) with ("-"%char :: b).
  induction 1 as [|c a Hc _ IH]; simpl; [reflexivity|].
  now rewrite (digit_not_hyphen c Hc), IH.
Qed.

Lemma lowerOfRange_single (a : jsstring) : digits a -> lowerOfRange a = a.
Proof. intros [_ Ha]. unfold lowerOfRange. now rewrite digits_no_hyphen. Qed.

Lemma lowerOfRange_range (a b : jsstring) :
  digits a -> lowerOfRange (a ++ js "-" ++ b) = a.
Proof.
  intros [_ Ha]. unfold lowerOfRange.
  replace (includes (a ++ js "-" ++ b) (js "-")) with true.
  - now apply splitFirst_digits.
  - symmetry. apply includes_spec. now exists a, b.
Qed.

Lemma takeDigits_all (a : jsstring) :
  Forall (fun c => isDigit c = true) a -> takeDigits a = a /\ dropDigits a = [].
Proof.
  induction 1 as [|c a Hc _ [IH1 IH2]]; simpl; [auto|].
  now rewrite Hc, IH1, IH2.
Qed.

(** [Math.floor(parseFloat(a) * k)] on a run of digits. *)
Lemma floorTimes_digits (a : jsstring) (k : Z) :
  digits a -> floorTimes a k = Some (decimal a * k).
Proof.
  intros [Hne Ha]. unfold floorTimes, parseFloat.
  destruct (takeDigits_all a Ha) as [-> ->].
  destruct a as [|c a]; [congruence|]. f_equal.
  generalize (decimal (c :: a)) as n. intros n.
  rewrite <- (Qfloor_Z (n * k)). apply Qfloor_comp.
  change (decimal []) with 0.
  unfold Qeq, Qdiv, Qinv, Qmult, Qplus, inject_Z. simpl. lia.
Qed.

(** Group 1 takes part in every match of the two patterns. *)
Lemma exec_captures (u : regex) (text : jsstring) (m : mstate) :
  groupless u = true -> exec (Seq number u) text = Some m ->
  exists val, cap1 m = Some val.
Proof.
  intros Hu E. apply exec_run in E as (pre & s' & _ & Hin).
  apply run_group_then in Hin as (w & Hw & _); [eauto | exact Hu].
Qed.

Lemma matchGroup1_None (u : regex) (text : jsstring) :
  groupless u = true ->
  matchGroup1 (Seq number u) text = None -> exec (Seq number u) text = None.
Proof.
  intros Hu. unfold matchGroup1.
  destruct (exec (Seq number u) text) as [m|] eqn:E; [|reflexivity].
  destruct (exec_captures u text m Hu E) as (val & ->). discriminate.
Qed.

(** The number that is converted: the run of digits at the start of
    group 1. *)
Lemma lowerOfRange_digits (u : regex) (text val : jsstring) :
  groupless u = true -> matchGroup1 (Seq number u) text = Some val ->
  digits (lowerOfRange val).
Proof.
  intros Hu Hm.
  destruct (capture_shape _ u text val eq_refl Hu Hm)
    as (a & Ha & [-> | (b & Hb & ->)]).
  - now rewrite lowerOfRange_single.
  - now rewrite lowerOfRange_range.
Qed.

(** A match of the minute pattern decides the result. *)
Lemma extract_of_minutes (text val : jsstring) :
  matchGroup1 minuteRe text = Some val ->
  extractTimeInSeconds text = Some (decimal (lowerOfRange val) * 60).
Proof.
  intros Hm. pose proof (lowerOfRange_digits minuteUnit text val eq_refl Hm) as Hd.
  unfold extractTimeInSeconds. unfold matchGroup1 in Hm.
  destruct (exec minuteRe text) as [m|]; [|discriminate].
  rewrite Hm. now apply floorTimes_digits.
Qed.

(** The hour pattern is tried when the minute pattern has no match. *)
Lemma extract_of_hours (text val : jsstring) :
  matchGroup1 minuteRe text = None -> matchGroup1 hourRe text = Some val ->
  extractTimeInSeconds text = Some (decimal (lowerOfRange val) * 3600).
Proof.
  intros Hn Hm. pose proof (lowerOfRange_digits hourUnit text val eq_refl Hm) as Hd.
  apply (matchGroup1_None minuteUnit) in Hn; [|reflexivity].
  unfold extractTimeInSeconds. fold minuteRe in Hn. rewrite Hn.
  unfold matchGroup1 in Hm.
  destruct (exec hourRe text) as [m|]; [|discriminate].
  rewrite Hm. now apply floorTimes_digits.
Qed.

Lemma extract_of_nothing (text : jsstring) :
  matchGroup1 minuteRe text = None -> matchGroup1 hourRe text = None ->
  extractTimeInSeconds text = None.
Proof.
  intros Hn Hh.
  apply (matchGroup1_None minuteUnit) in Hn; [|reflexivity].
  apply (matchGroup1_None hourUnit) in Hh; [|reflexivity].
  unfold extractTimeInSeconds. fold minuteRe in Hn. fold hourRe in Hh.
  now rewrite Hn, Hh.
Qed.

(** X10.  No duration is found exactly when the text contains no word
    of the minute pattern and no word of the hour pattern. *)
Lemma extract_None (text : jsstring) :
  extractTimeInSeconds text = None <->
  ~ contains minuteRe text /\ ~ contains hourRe text.
Proof.
  split.
  - intros E. split; intros H; apply exec_contains in H as (m & Hm).
    + destruct (exec_captures minuteUnit text m eq_refl Hm) as (val & Hval).
      rewrite (extract_of_minutes text val) in E; [discriminate|].
      unfold matchGroup1. now rewrite Hm.
    + destruct (exec_captures hourUnit text m eq_refl Hm) as (val & Hval).
      assert (Hh : matchGroup1 hourRe text = Some val).
      { unfold matchGroup1. now rewrite Hm. }
      destruct (matchGroup1 minuteRe text) as [vm|] eqn:Hmin.
      * rewrite (extract_of_minutes text vm Hmin) in E. discriminate.
      * rewrite (extract_of_hours text val Hmin Hh) in E. discriminate.
  - intros [Hmin Hhour]. apply extract_of_nothing.
    + destruct (matchGroup1 minuteRe text) as [v|] eqn:E; [|reflexivity].
      exfalso. apply Hmin, exec_contains. unfold matchGroup1 in E.
      destruct (exec minuteRe text); [eauto | discriminate].
    + destruct (matchGroup1 hourRe text) as [v|] eqn:E; [|reflexivity].
      exfalso. apply Hhour, exec_contains. unfold matchGroup1 in E.
      destruct (exec hourRe text); [eauto | discriminate].
Qed.

End Extractor.

(** The samples of the extractor that hold as the specification has them. *)
Example extractTimeInSeconds_samples :
  extractTimeInSeconds (js "Simmer for 10 minutes") = Some 600 /\
  extractTimeInSeconds (js "Bake for 1 hour") = Some 3600 /\
  extractTimeInSeconds (js "Marinate for 10-15 mins") = Some 600 /\
  extractTimeInSeconds (js "Add salt to taste") = None.
Proof. vm_compute. auto. Qed.

(** C1.  The text "1.5 hrs in the oven" does not give 5400 seconds.  The
    pattern has no place for a decimal point: its match starts at
    the 5, group 1 is "5", and the result is 5 hours, 18000 seconds.  The
    conversion itself would take the fraction: on "1.5" it gives 5400. *)
Theorem fractional_hours_lose_whole_part :
  matchGroup1 minuteRe (js "1.5 hrs in the oven") = None /\
  matchGroup1 hourRe (js "1.5 hrs in the oven") = Some (js "5") /\
  extractTimeInSeconds (js "1.5 hrs in the oven") = Some 18000 /\
  floorTimes (js "1.5") 3600 = Some 5400.
Proof. vm_compute. auto. Qed.

(** The number before the hyphen of a range is the one converted,
    whatever the number after it: times 60 under the minute pattern, times
    3600 under the hour pattern. *)
Lemma range_uses_first_number (text a b : jsstring) :
  digits a -> digits b ->
  (matchGroup1 minuteRe text = Some (a ++ js "-" ++ b) ->
   extractTimeInSeconds text = Some (decimal a * 60)) /\
  (matchGroup1 minuteRe text = None ->
   matchGroup1 hourRe text = Some (a ++ js "-" ++ b) ->
   extractTimeInSeconds text = Some (decimal a * 3600)).
Proof.
  intros Ha Hb. split.
  - intros Hm. rewrite (extract_of_minutes _ _ Hm).
    now rewrite lowerOfRange_range.
  - intros Hn Hm. rewrite (extract_of_hours _ _ Hn Hm).
    now rewrite lowerOfRange_range.
Qed.

(** C6.  The lower bound of a range is not always the number used.  The
    comment of the code says that the lower bound is taken, and the code
    takes the number before the hyphen: on "Marinate for 15-10 mins"
    group 1 is "15-10", the number kept is "15" and the result is 900
    seconds, where the lower bound gives 600; on "Rest for 3-2 hours" the
    result is 10800, where the lower bound gives 7200.  On the range
    written in ascending order, "Marinate for 10-15 mins", the result is
    the 600 of the lower bound. *)
Theorem descending_range_takes_upper_bound :
  matchGroup1 minuteRe (js "Marinate for 15-10 mins") = Some (js "15-10") /\
  lowerOfRange (js "15-10") = js "15" /\
  extractTimeInSeconds (js "Marinate for 15-10 mins") = Some 900 /\
  Z.min (decimal (js "15")) (decimal (js "10")) * 60 = 600 /\
  extractTimeInSeconds (js "Rest for 3-2 hours") = Some 10800 /\
  Z.min (decimal (js "3")) (decimal (js "2")) * 3600 = 7200 /\
  extractTimeInSeconds (js "Marinate for 10-15 mins") = Some 600.
Proof. vm_compute. repeat split; reflexivity. Qed.



(** ** The quantity scaler *)

Section ScalerFacts.

Lemma takeDigits_nil (amount : jsstring) :
  takeDigits amount = [] <-> ~ beginsWithQuantity amount.
Proof.
  unfold beginsWithQuantity. destruct amount as [|c s]; simpl.
  - split; [intros _ (c & r & E & _); discriminate | reflexivity].
  - destruct (isDigit c) eqn:Hc.
    + split; [discriminate | intros H; exfalso; apply H; eauto].
    + split; [|reflexivity]. intros _ (c' & r & E & Hc').
      injection E as -> ->. congruence.
Qed.

(** The recognizer gives up exactly on the amounts that do not begin with
    a number. *)
Lemma leadingQuantity_None (amount : jsstring) :
  leadingQuantity amount = None <-> ~ beginsWithQuantity amount.
Proof.
  rewrite <- takeDigits_nil. unfold leadingQuantity.
  destruct (takeDigits amount) as [|c a]; [tauto|].
  split; [|discriminate].
  match goal with
  | |- match ?m with _ => _ end = None -> _ =>
      destruct m as [?|];
      [discriminate
      |match goal with
       | |- match ?f with _ => _ end = None -> _ =>
           destruct f as [?|];
           [discriminate
           |match goal with
            | |- match ?d with _ => _ end = None -> _ =>
                destruct d as [?|]; discriminate
            end]
       end]
  end.
Qed.

End ScalerFacts.

(** C9.  An amount that does not begin with a number is returned as it
    is, whatever the two serving counts; the scaler is a total function,
    so there is no failure to report. *)
Theorem scaleAmount_keeps_other_amounts (amount : jsstring)
    (originalServings desiredServings : Z) :
  ~ beginsWithQuantity amount ->
  scaleAmount amount originalServings desiredServings = amount.
Proof.
  intros H. apply leadingQuantity_None in H. unfold scaleAmount. now rewrite H.
Qed.

Lemma scaleAmount_keeps_other_amounts_witness :
  scaleAmount (js "a pinch") 2 4 = js "a pinch".
Proof.
  apply (scaleAmount_keeps_other_amounts (js "a pinch") 2 4).
  intros (c & remainder & E & Hc). injection E as <- _. discriminate Hc.
Defined.

(** The samples of the specification, on the scaler as modelled. *)
Example scaleAmount_samples :
  scaleAmount (js "200 g") 2 4 = js "400 g" /\
  scaleAmount (js "1/2 cup") 2 1 = js "1/4 cup" /\
  scaleAmount (js "1 1/2 cups") 4 2 = js "3/4 cups" /\
  scaleAmount (js "2 eggs") 0 3 = js "6 eggs".
Proof. vm_compute. auto. Qed.

(** * Further properties *)

(** ** Printing numbers *)

Section Printing.

Lemma decimalFrom_linear (s : jsstring) (acc : Z) :
  decimalFrom acc s = acc * 10 ^ Z.of_nat (length s) + decimal s.
Proof.
  unfold decimal. revert acc. induction s as [|c s IH]; intros acc.
  - simpl. lia.
  - cbn [decimalFrom length]. rewrite IH, (IH (10 * 0 + digitValue c)).
    rewrite Nat2Z.inj_succ, Z.pow_succ_r by lia. lia.
Qed.

Lemma decimal_snoc (d : jsstring) (c : ascii) :
  decimal (d ++ [c]) = decimal d * 10 + digitValue c.
Proof.
  revert c. unfold decimal. generalize 0 as acc. revert d.
  induction d as [|e d IH]; intros acc c; simpl; [lia|]. apply IH.
Qed.

Lemma pretty_N_char_digit (k : N) :
  (k < 10)%N ->
  isDigit (pretty_N_char k) = true /\
  digitValue (pretty_N_char k) = Z.of_N k.
Proof.
  intros H.
  assert (k = 0 \/ k = 1 \/ k = 2 \/ k = 3 \/ k = 4 \/ k = 5 \/ k = 6 \/
          k = 7 \/ k = 8 \/ k = 9)%N as Hk by lia.
  repeat destruct Hk as [-> | Hk]; try subst k; split; reflexivity.
Qed.

(** The printer puts the digits of [x] in front of [s]. *)
Lemma pretty_N_go_digits (x : N) :
  forall s, exists d,
    js (pretty_N_go x s) = d ++ js s /\
    Forall (fun c => isDigit c = true) d /\
    decimal d = Z.of_N x /\ ((0 < x)%N -> d <> []).
Proof.
  induction (N.lt_wf_0 x) as [x _ IH]. intros s.
  destruct (N.eq_dec x 0%N) as [-> | Hx].
  - exists []. rewrite pretty_N_go_0. repeat split; [constructor | lia].
  - rewrite pretty_N_go_step by lia.
    destruct (IH (x `div` 10)%N ltac:(apply N.div_lt; lia)
                 (String (pretty_N_char (x `mod` 10)) s))
      as (d & E & Hd & Hv & _).
    destruct (pretty_N_char_digit (x `mod` 10)%N) as [Hc Hcv];
      [apply N.mod_lt; lia|].
    exists (d ++ [pretty_N_char (x `mod` 10)]). repeat split.
    + rewrite E. simpl. now rewrite <- app_assoc.
    + apply Forall_app. split; [exact Hd | now constructor].
    + rewrite decimal_snoc, Hv, Hcv.
      rewrite (N.div_mod x 10) at 3 by lia. lia.
    + intros _. now destruct d.
Qed.

(** An integer that is not negative prints as its digits. *)
Lemma toStringZ_digits (n : Z) :
  0 <= n -> digits (toStringZ n) /\ decimal (toStringZ n) = n.
Proof.
  intros Hn. unfold toStringZ. destruct n as [|p|p]; [|clear Hn|lia].
  - split; [split; [discriminate | repeat constructor] | reflexivity].
  - change (pretty (Z.pos p)) with (pretty_N_go (N.pos p) "").
    destruct (pretty_N_go_digits (N.pos p) "") as (d & E & Hd & Hv & Hne).
    unfold js in *. simpl in E. rewrite app_nil_r in E. rewrite E.
    split; [split; [apply Hne; lia | exact Hd] | now rewrite Hv].
Qed.

End Printing.

(** ** The clock of the timer sheet *)

Section Clock.

Lemma splitFirst_app (sep : ascii) (a b : jsstring) :
  ~ In sep a -> splitFirst sep (a ++ sep :: b) = a.
Proof.
  induction a as [|c a IH]; intros Hn; simpl.
  - now rewrite Ascii.eqb_refl.
  - destruct (Ascii.eqb_spec c sep) as [-> | _].
    + exfalso. apply Hn. now left.
    + rewrite IH; [reflexivity|]. intros H. apply Hn. now right.
Qed.

Lemma digits_without (sep : ascii) (a : jsstring) :
  isDigit sep = false -> Forall (fun c => isDigit c = true) a -> ~ In sep a.
Proof.
  intros Hs Ha Hin. rewrite Forall_forall in Ha.
  rewrite (Ha sep) in Hs; [discriminate|]. now apply list_elem_of_In.
Qed.

Lemma pretty_N_go_one (x : N) (s : string) :
  (0 < x < 10)%N -> pretty_N_go x s = String (pretty_N_char x) s.
Proof.
  intros Hx. rewrite pretty_N_go_step by lia.
  rewrite N.div_small, N.mod_small by lia. apply pretty_N_go_0.
Qed.

Lemma pretty_N_go_two (x : N) (s : string) :
  (10 <= x < 100)%N ->
  pretty_N_go x s =
  String (pretty_N_char (x `div` 10)) (String (pretty_N_char (x `mod` 10)) s).
Proof.
  intros Hx. rewrite pretty_N_go_step by lia.
  apply pretty_N_go_one. split.
  - apply N.div_str_pos. lia.
  - apply N.Div0.div_lt_upper_bound. lia.
Qed.

(** The seconds are shown with two digits. *)
Lemma seconds_two_digits (s : Z) :
  0 <= s < 60 ->
  length (padStart 2 "0" (toStringZ s)) = 2%nat /\
  Forall (fun c => isDigit c = true) (padStart 2 "0" (toStringZ s)) /\
  decimal (padStart 2 "0" (toStringZ s)) = s.
Proof.
  intros Hs. destruct s as [|p|p]; [| |lia].
  - repeat split. repeat constructor.
  - unfold toStringZ.
    change (pretty (Z.pos p)) with (pretty_N_go (N.pos p) "").
    destruct (Z_lt_le_dec (Z.pos p) 10) as [Hlt | Hge].
    + rewrite pretty_N_go_one by lia.
      destruct (pretty_N_char_digit (N.pos p)) as [Hc Hv]; [lia|].
      repeat split; [repeat constructor; exact Hc|].
      change (decimal ["0"%char; pretty_N_char (N.pos p)] = Z.pos p).
      unfold decimal. cbn [decimalFrom]. rewrite Hv.
      change (digitValue "0") with 0. lia.
    + rewrite pretty_N_go_two by lia.
      destruct (pretty_N_char_digit (N.pos p `div` 10)) as [Hc1 Hv1];
        [apply N.Div0.div_lt_upper_bound; lia|].
      destruct (pretty_N_char_digit (N.pos p `mod` 10)) as [Hc2 Hv2];
        [apply N.mod_lt; lia|].
      repeat split; [repeat constructor; assumption|].
      change (decimal [pretty_N_char (N.pos p `div` 10);
                       pretty_N_char (N.pos p `mod` 10)] = Z.pos p).
      unfold decimal. cbn [decimalFrom]. rewrite Hv1, Hv2.
      pose proof (N.div_mod (N.pos p) 10). lia.
Qed.

Lemma formatTime_shape (t : Z) :
  0 <= t ->
  exists mm ss,
    formatTime t = mm ++ js ":" ++ ss /\
    digits mm /\ Forall (fun c => isDigit c = true) ss /\ length ss = 2%nat /\
    decimal mm = t / 60 /\ decimal ss = t mod 60.
Proof.
  intros Ht. unfold formatTime.
  assert (Hm : 0 <= t / 60) by (apply Z.div_pos; lia).
  destruct (toStringZ_digits (t / 60) Hm) as [Hd Hv].
  rewrite Z.rem_mod_nonneg by lia.
  destruct (seconds_two_digits (t mod 60)) as (Hlen & Hss & Hsv);
    [apply Z.mod_pos_bound; lia|].
  exists (toStringZ (t / 60)), (padStart 2 "0" (toStringZ (t mod 60))).
  repeat split; auto; apply Hd.
Qed.

End Clock.

(** X1.  For a number of seconds that is a safe integer and not
    negative, the clock shows the minutes, a colon and the seconds on two
    digits, below 60; the text reads back as the number of seconds, so
    two different such numbers are never shown alike. *)
Theorem formatTime_reads_back (t : Z) :
  0 <= t <= MAX_SAFE_INTEGER ->
  (exists mm ss,
      formatTime t = mm ++ js ":" ++ ss /\
      digits mm /\ Forall (fun c => isDigit c = true) ss /\
      length ss = 2%nat /\ decimal ss < 60 /\
      decimal mm * 60 + decimal ss = t) /\
  forall t', 0 <= t' <= MAX_SAFE_INTEGER ->
    formatTime t' = formatTime t -> t' = t.
Proof.
  intros [Ht _].
  destruct (formatTime_shape t Ht) as (mm & ss & E & Hmm & Hss & Hlen & Vm & Vs).
  split.
  - exists mm, ss. repeat split; auto; try apply Hmm.
    + rewrite Vs. apply Z.mod_pos_bound. lia.
    + rewrite Vm, Vs. pose proof (Z.div_mod t 60). lia.
  - intros t' [Ht' _] Eq.
    destruct (formatTime_shape t' Ht')
      as (mm' & ss' & E' & Hmm' & Hss' & Hlen' & Vm' & Vs').
    rewrite E, E' in Eq.
    assert (Emm : mm' = mm).
    { apply (f_equal (splitFirst ":")) in Eq.
      change (js ":" ++ ss') with (":"%char :: ss') in Eq.
      change (js ":" ++ ss) with (":"%char :: ss) in Eq.
      rewrite !splitFirst_app in Eq; [exact Eq | | ];
        apply digits_without; [reflexivity | apply Hmm | reflexivity | apply Hmm']. }
    subst mm'. apply app_inv_head in Eq. injection Eq as Ess. subst ss'.
    pose proof (Z.div_mod t 60). pose proof (Z.div_mod t' 60). lia.
Qed.

Lemma formatTime_reads_back_witness :
  formatTime 605 = js "10:05" /\
  forall t', 0 <= t' <= MAX_SAFE_INTEGER ->
    formatTime t' = formatTime 605 -> t' = 605.
Proof.
  split; [reflexivity|].
  apply (proj2 (formatTime_reads_back 605 ltac:(unfold MAX_SAFE_INTEGER; lia))).
Defined.

(** ** The countdown *)

Section Countdown.



End Countdown.



(** ** Sessions on the page *)

Section PageSessions.

Variable recipe : Recipe.

Lemma at_index_in_range {A} (arr : list A) (i : Z) :
  0 <= i < Z.of_nat (length arr) -> exists x, at_index arr i = Some x.
Proof.
  intros Hi. unfold at_index. destruct (i <? 0) eqn:E; [lia|].
  apply lookup_lt_is_Some. lia.
Qed.

Lemma perform_timerPositive (op : Op) (s : State) :
  timerPositive s -> timerPositive (perform recipe op s).
Proof.
  unfold timerPositive. intros Hs t'. rewrite perform_timer. destruct op; auto.
  - destruct (startTimer_timer recipe s) as [-> | (d & _ & Hd & ->)]; [auto|].
    now intros [= <-].
  - destruct (interval s); [|auto].
    destruct (timer s) as [t|] eqn:Ht; [|discriminate].
    specialize (Hs t eq_refl). unfold tickUpdate.
    destruct (negb (isRunning t)); [now intros [= <-]|].
    destruct (remaining t <=? 1); now intros [= <-].
  - destruct (timer s) as [t|] eqn:Ht; [|discriminate].
    specialize (Hs t eq_refl). now intros [= <-].
  - destruct (timer s) as [t|] eqn:Ht; [|discriminate].
    specialize (Hs t eq_refl). now intros [= <-].
  - discriminate.
Qed.

Lemma reachable_timerPositive (s : State) :
  reachable recipe s -> timerPositive s.
Proof.
  induction 1 as [|op s _ IH]; [intros t; discriminate|].
  now apply perform_timerPositive.
Qed.

End PageSessions.

(** X3.  In a session driven by the page, the interval is live exactly
    while there is a running timer; a running timer has time left, within
    its duration; and a timer at 0 is not running. *)
Theorem page_interval_follows_timer (recipe : Recipe) (s : State) :
  reachableByClicks recipe s ->
  (interval s = true <-> exists t, timer s = Some t /\ isRunning t = true) /\
  (forall t, timer s = Some t -> isRunning t = true ->
             0 < remaining t <= duration t) /\
  (forall t, timer s = Some t -> remaining t = 0 -> isRunning t = false).
Proof.
  intros Hs. apply reachableByClicks_pageInvariant in Hs.
  unfold pageInvariant in Hs. destruct (timer s) as [t|].
  - destruct Hs as (Hb & Hrun & Hiv). split; [|split].
    + rewrite Hiv. split; [eauto | now intros (t' & [= <-] & H)].
    + intros t' [= <-] H. specialize (Hrun H). lia.
    + intros t' [= <-] H. destruct (isRunning t); [|reflexivity].
      specialize (Hrun eq_refl). lia.
  - split; [|split]; try (intros t; discriminate).
    rewrite Hs. split; [discriminate | now intros (t & H & _)].
Qed.

Lemma page_interval_follows_timer_witness :
  (interval awayFromTimer = true <->
   exists t, timer awayFromTimer = Some t /\ isRunning t = true) /\
  (interval expired = true <->
   exists t, timer expired = Some t /\ isRunning t = true).
Proof.
  split.
  - exact (proj1 (page_interval_follows_timer soup awayFromTimer
                    reachableByClicks_awayFromTimer)).
  - exact (proj1 (page_interval_follows_timer soup expired
                    reachableByClicks_expired)).
Defined.

(** X4.  When the recipe has a step, every state that the session reaches
    shows a step of the recipe, so that the text of the current step is
    defined, and the timer, when there is one, belongs to a step of the
    recipe and has a duration above zero. *)
Theorem shown_step_is_a_step (recipe : Recipe) (s : State) :
  steps recipe <> [] -> reachable recipe s ->
  (exists text, currentStepText recipe s = Some text) /\
  forall t, timer s = Some t ->
    (exists text, at_index (steps recipe) (stepIndex t) = Some text) /\
    0 < duration t.
Proof.
  intros Hne Hs.
  destruct (reachable_stepsInRange recipe s Hne Hs) as [Hi Ht].
  split.
  - now apply at_index_in_range.
  - intros t Htm. split.
    + apply at_index_in_range. now apply Ht.
    + now apply (reachable_timerPositive recipe s Hs).
Qed.

Lemma shown_step_is_a_step_witness :
  exists text, currentStepText soup expired = Some text.
Proof.
  refine (proj1 (shown_step_is_a_step soup expired _ reachable_expired)).
  discriminate.
Defined.

(** ** The keys of the check list *)

Section CheckKeys.

Lemma js_inj (a b : string) : js a = js b -> a = b.
Proof.
  intros H. apply (f_equal string_of_list_ascii) in H. unfold js in H.
  now rewrite !string_of_list_ascii_of_string in H.
Qed.

Lemma pretty_N_Z (n : N) : pretty n = pretty (Z.of_N n).
Proof. destruct n; reflexivity. Qed.

Lemma index_digits (i : nat) : digits (js (pretty i)).
Proof.
  change (pretty i) with (pretty (N.of_nat i)). rewrite pretty_N_Z.
  apply (toStringZ_digits (Z.of_N (N.of_nat i))). lia.
Qed.

(** Two keys are the same only for the same step and the same ingredient. *)
Lemma checkKey_inj (k k' : Z) (i i' : nat) :
  0 <= k -> 0 <= k' -> checkKey k i = checkKey k' i' -> k = k' /\ i = i'.
Proof.
  intros Hk Hk' E. unfold checkKey in E.
  destruct (toStringZ_digits k Hk) as [[_ Dk] _].
  destruct (toStringZ_digits k' Hk') as [[_ Dk'] _].
  unfold toStringZ in *.
  assert (Ek : js (pretty k) = js (pretty k')).
  { apply (f_equal (splitFirst "-")) in E.
    change (js "-" ++ js (pretty i)) with ("-"%char :: js (pretty i)) in E.
    change (js "-" ++ js (pretty i')) with ("-"%char :: js (pretty i')) in E.
    rewrite !splitFirst_app in E; [exact E | | ];
      apply digits_without; auto. }
  rewrite Ek in E. apply app_inv_head in E. injection E as E.
  apply js_inj in Ek, E. split; [now apply (inj pretty) | now apply (inj pretty)].
Qed.

End CheckKeys.

(** X5.  Checking ingredient [i] on the step shown flips the box of that
    ingredient on that step and no other: for every step [k'] and
    ingredient [i'] the box is as before, unless [k'] is the step shown
    and [i'] is [i]. *)
Theorem toggleIngredientCheck_flips_one_box (s : State) (i : nat)
    (k' : Z) (i' : nat) :
  0 <= currentStepIndex s -> 0 <= k' ->
  isChecked k' i' (toggleIngredientCheck i s) =
  if bool_decide (k' = currentStepIndex s /\ i' = i)
  then negb (isChecked k' i' s)
  else isChecked k' i' s.
Proof.
  intros Hk Hk'. unfold isChecked, toggleIngredientCheck.
  rewrite commit_checked. simpl.
  set (key := checkKey (currentStepIndex s) i).
  set (key' := checkKey k' i').
  assert (Hkeys : key' = key <-> k' = currentStepIndex s /\ i' = i).
  { split; [now apply checkKey_inj | now intros [-> ->]]. }
  clearbody key key'.
  destruct (decide (k' = currentStepIndex s /\ i' = i)) as [Hsame | Hdiff].
  - rewrite (bool_decide_eq_true_2 _ Hsame).
    apply Hkeys in Hsame. subst key'.
    destruct (decide (key ∈ checkedItems s)) as [Hin | Hout].
    + rewrite (bool_decide_eq_true_2 _ Hin). simpl.
      apply bool_decide_eq_false_2.
      rewrite elem_of_difference, elem_of_singleton. tauto.
    + rewrite (bool_decide_eq_false_2 _ Hout). simpl.
      apply bool_decide_eq_true_2.
      rewrite elem_of_union, elem_of_singleton. tauto.
  - rewrite (bool_decide_eq_false_2 _ Hdiff).
    assert (Hne : key' <> key) by tauto.
    destruct (decide (key ∈ checkedItems s)) as [Hin | Hout];
      apply bool_decide_ext.
    + rewrite elem_of_difference, elem_of_singleton. tauto.
    + rewrite elem_of_union, elem_of_singleton. tauto.
Qed.

Lemma toggleIngredientCheck_flips_one_box_witness :
  isChecked 4 1 (toggleIngredientCheck 1 awayFromTimer) = true /\
  isChecked 4 11 (toggleIngredientCheck 1 awayFromTimer) = false /\
  isChecked 41 1 (toggleIngredientCheck 1 awayFromTimer) = false.
Proof.
  split; [|split].
  - exact (toggleIngredientCheck_flips_one_box awayFromTimer 1 4 1
             ltac:(simpl; lia) ltac:(lia)).
  - exact (toggleIngredientCheck_flips_one_box awayFromTimer 1 4 11
             ltac:(simpl; lia) ltac:(lia)).
  - exact (toggleIngredientCheck_flips_one_box awayFromTimer 1 41 1
             ltac:(simpl; lia) ltac:(lia)).
Defined.

(** ** Starting and resetting the timer *)

(** X7.  In a session driven by the page, the start on a step with a
    duration that is not 0 leaves one timer, whatever timer there was: it
    runs, with the whole duration left, it belongs to the step shown, and
    the interval is live.  The step and the check list are as before. *)
Theorem startTimer_on_the_page (recipe : Recipe) (s : State) (d : Z) :
  reachableByClicks recipe s ->
  detectedDuration recipe s = Some d -> d <> 0 ->
  startTimer recipe s =
  {| currentStepIndex := currentStepIndex s;
     timer := Some {| duration := d; remaining := d; isRunning := true;
                      stepIndex := currentStepIndex s |};
     checkedItems := checkedItems s; interval := true |}.
Proof.
  intros Hs Hd Hne.
  assert (Hpos : 0 < d).
  { assert (0 <= d); [|lia]. unfold detectedDuration in Hd.
    destruct (currentStepText recipe s); [|discriminate].
    now apply extractTimeInSeconds_nonneg in Hd. }
  apply reachableByClicks_pageInvariant in Hs. unfold pageInvariant in Hs.
  unfold startTimer. rewrite Hd.
  destruct (d =? 0) eqn:E; [lia|].
  unfold commit, effectDep, timerEffect, setTimer, setInterval.
  destruct s as [i tm ck iv]. simpl in *.
  destruct (0 <? d) eqn:F; [|lia].
  destruct tm as [t|]; simpl.
  - destruct Hs as (_ & _ & ->).
    now destruct (isRunning t).
  - reflexivity.
Qed.

Lemma startTimer_on_the_page_witness :
  startTimer soup expired =
  {| currentStepIndex := 1;
     timer := Some {| duration := 60; remaining := 60; isRunning := true;
                      stepIndex := 1 |};
     checkedItems := ∅; interval := true |}.
Proof.
  refine (startTimer_on_the_page soup expired 60 reachableByClicks_expired _ _).
  - vm_compute. reflexivity.
  - discriminate.
Defined.



(** ** More on the duration extractor *)

Section ExtractorMore.

Lemma digits_decimal_nonneg (a : jsstring) : digits a -> 0 <= decimal a.
Proof. intros [_ Ha]. apply decimalFrom_nonneg; [exact Ha | lia]. Qed.

(** A match of the two patterns starts at a digit. *)
Lemma run_number_nondigit (u : regex) (cap : option jsstring) (c : ascii)
    (s : jsstring) :
  isDigit c = false -> run (Seq number u) (MState cap (c :: s)) = [].
Proof. intros Hc. simpl. now rewrite Hc. Qed.

Lemma exec_skip (u : regex) (pre s : jsstring) :
  Forall (fun c => isDigit c = false) pre ->
  exec (Seq number u) (pre ++ s) = exec (Seq number u) s.
Proof.
  induction 1 as [|c pre Hc _ IH]; [reflexivity|].
  change ((c :: pre) ++ s) with (c :: (pre ++ s)).
  cbn [exec]. now rewrite run_number_nondigit.
Qed.

End ExtractorMore.

(** X9.  A duration that is found and is a safe integer is a whole
    number of minutes, not negative; the start button, which rounds the
    minutes up, shows that number. *)
Theorem extract_whole_minutes (text : jsstring) (d : Z) :
  extractTimeInSeconds text = Some d ->
  d <= MAX_SAFE_INTEGER ->
  exists n, 0 <= n /\ d = n * 60 /\ startLabelMinutes d = n.
Proof.
  intros E _.
  assert (H : exists n, 0 <= n /\ d = n * 60).
  { destruct (matchGroup1 minuteRe text) as [vm|] eqn:Hm.
    - rewrite (extract_of_minutes text vm Hm) in E. injection E as <-.
      exists (decimal (lowerOfRange vm)). split; [|reflexivity].
      apply digits_decimal_nonneg.
      exact (lowerOfRange_digits minuteUnit text vm eq_refl Hm).
    - destruct (matchGroup1 hourRe text) as [vh|] eqn:Hh.
      + rewrite (extract_of_hours text vh Hm Hh) in E. injection E as <-.
        exists (decimal (lowerOfRange vh) * 60). split; [|lia].
        pose proof (digits_decimal_nonneg _
          (lowerOfRange_digits hourUnit text vh eq_refl Hh)). lia.
      + rewrite (extract_of_nothing text Hm Hh) in E. discriminate. }
  destruct H as (n & Hn & ->). exists n. repeat split; [exact Hn|].
  unfold startLabelMinutes. rewrite <- Z.mul_opp_l, Z.div_mul by lia. lia.
Qed.

Lemma extract_whole_minutes_witness :
  exists n, 0 <= n /\ 3600 = n * 60 /\ startLabelMinutes 3600 = n.
Proof.
  apply (extract_whole_minutes (js "Bake for 1 hour") 3600).
  - vm_compute. reflexivity.
  - vm_compute. discriminate.
Defined.

(** X11.  The text in front of the first digit does not count: without
    it the result is the same, and a text without digits has no
    duration. *)
Theorem extract_skips_text_without_digits (pre s : jsstring) :
  Forall (fun c => isDigit c = false) pre ->
  extractTimeInSeconds (pre ++ s) = extractTimeInSeconds s /\
  extractTimeInSeconds pre = None.
Proof.
  intros Hpre.
  assert (H : forall s', extractTimeInSeconds (pre ++ s')
                         = extractTimeInSeconds s').
  { intros s'. unfold extractTimeInSeconds, minuteRe, hourRe.
    now rewrite !exec_skip. }
  split; [apply H|]. rewrite <- (app_nil_r pre), H. reflexivity.
Qed.

Lemma extract_skips_text_without_digits_witness :
  extractTimeInSeconds (js "Then simmer for 10 minutes") =
  extractTimeInSeconds (js "10 minutes") /\
  extractTimeInSeconds (js "Then simmer for ") = None.
Proof.
  apply (extract_skips_text_without_digits (js "Then simmer for ")
           (js "10 minutes")).
  repeat constructor.
Defined.



(** ** The case of the text *)

Section CaseOfText.

Variable f : ascii -> ascii.

Lemma filter_progress_map (x : mstate) (l : list mstate) :
  List.filter (progress (mapState f x)) (map (mapState f) l) =
  map (mapState f) (List.filter (progress x) l).
Proof.
  induction l as [|y l IH]; simpl; [reflexivity|].
  assert (E : progress (mapState f x) (mapState f y) = progress x y).
  { unfold progress, mapState. simpl. now rewrite !length_map. }
  rewrite E. destruct (progress x y); simpl; now rewrite IH.
Qed.

Lemma flat_map_map_commute (g h : mstate -> list mstate) (l : list mstate) :
  (forall y, g (mapState f y) = map (mapState f) (h y)) ->
  flat_map g (map (mapState f) l) = map (mapState f) (flat_map h l).
Proof.
  intros H. induction l as [|y l IH]; simpl; [reflexivity|].
  now rewrite H, IH, map_app.
Qed.

Lemma iterate_map (step : mstate -> list mstate) :
  (forall x, step (mapState f x) = map (mapState f) (step x)) ->
  forall fuel x,
    iterate step fuel (mapState f x) = map (mapState f) (iterate step fuel x).
Proof.
  intros Hstep. induction fuel as [|fuel IH]; intros x; [reflexivity|].
  cbn [iterate]. rewrite Hstep, filter_progress_map, map_app.
  f_equal. now apply flat_map_map_commute.
Qed.

(** On the text mapped by [f] the matcher lists the images of the states
    that it lists on the text. *)
Lemma run_map (r : regex) :
  respects f r ->
  forall x, run r (mapState f x) = map (mapState f) (run r x).
Proof.
  induction r as [|p|r1 IH1 r2 IH2|r1 IH1 r2 IH2|r IH|r IH|r IH];
    simpl; intros Hr x.
  - reflexivity.
  - destruct (rest x) as [|c s']; [reflexivity|]. simpl. rewrite Hr.
    now destruct (p c).
  - destruct Hr as [H1 H2]. rewrite (IH1 H1).
    apply flat_map_map_commute. now apply IH2.
  - destruct Hr as [H1 H2]. now rewrite (IH1 H1), (IH2 H2), map_app.
  - rewrite (IH Hr), filter_progress_map, map_app. reflexivity.
  - rewrite length_map. apply iterate_map. now apply IH.
  - rewrite (IH Hr), !map_map. apply map_ext. intros y.
    unfold mapState, consumed. simpl. rewrite !length_map.
    f_equal. f_equal. symmetry. apply fmap_take.
Qed.

Lemma exec_map (r : regex) (s : jsstring) :
  respects f r -> exec r (map f s) = option_map (mapState f) (exec r s).
Proof.
  intros Hr.
  assert (Hrun : forall s', run r (MState None (map f s')) =
                            map (mapState f) (run r (MState None s'))).
  { intros s'. apply (run_map r Hr (MState None s')). }
  induction s as [|c s IH].
  - cbn [exec map]. change (@nil ascii) with (map f []) at 1.
    rewrite Hrun. now destruct (run r (MState None [])).
  - cbn [exec]. change (map f (c :: s)) with (f c :: map f s).
    cbn [exec].
    change (f c :: map f s) with (map f (c :: s)). rewrite Hrun.
    destruct (run r (MState None (c :: s))); [exact IH | reflexivity].
Qed.

End CaseOfText.

Section LowerCase.

Lemma lowerChar_isDigit (c : ascii) : isDigit (lowerChar c) = isDigit c.
Proof. destruct c as [[] [] [] [] [] [] [] []]; reflexivity. Qed.

Lemma lowerChar_isSpace (c : ascii) : isSpace (lowerChar c) = isSpace c.
Proof. destruct c as [[] [] [] [] [] [] [] []]; reflexivity. Qed.

Lemma lowerChar_canonicalize (c : ascii) :
  canonicalize (lowerChar c) = canonicalize c.
Proof. destruct c as [[] [] [] [] [] [] [] []]; reflexivity. Qed.

Lemma lowerChar_idempotent (c : ascii) : lowerChar (lowerChar c) = lowerChar c.
Proof. destruct c as [[] [] [] [] [] [] [] []]; reflexivity. Qed.

Lemma lowerChar_digit (c : ascii) : isDigit c = true -> lowerChar c = c.
Proof.
  destruct c as [[] [] [] [] [] [] [] []]; intros H;
    first [reflexivity | discriminate H].
Qed.

Lemma toLowerCase_digits (a : jsstring) :
  Forall (fun c => isDigit c = true) a -> toLowerCase a = a.
Proof.
  unfold toLowerCase. induction 1 as [|c a Hc _ IH]; simpl; [reflexivity|].
  now rewrite (lowerChar_digit c Hc), IH.
Qed.

Lemma respects_lit (c : ascii) : respects lowerChar (Lit c).
Proof. intros x. simpl. now rewrite lowerChar_canonicalize. Qed.

Lemma respects_number : respects lowerChar number.
Proof.
  repeat split; try exact lowerChar_isDigit; apply respects_lit.
Qed.

Lemma respects_minuteRe : respects lowerChar minuteRe.
Proof.
  split; [exact respects_number|].
  repeat split; try exact lowerChar_isSpace; apply respects_lit.
Qed.

Lemma respects_hourRe : respects lowerChar hourRe.
Proof.
  split; [exact respects_number|].
  repeat split; try exact lowerChar_isSpace; apply respects_lit.
Qed.

(** Group 1 has no letter: lower case leaves it as it is. *)
Lemma toLowerCase_capture (u : regex) (text val : jsstring) :
  groupless u = true -> matchGroup1 (Seq number u) text = Some val ->
  toLowerCase val = val.
Proof.
  intros Hu Hm.
  destruct (capture_shape _ u text val eq_refl Hu Hm)
    as (a & [_ Ha] & [-> | (b & [_ Hb] & ->)]).
  - now apply toLowerCase_digits.
  - unfold toLowerCase. rewrite !map_app.
    fold (toLowerCase a) (toLowerCase b).
    rewrite (toLowerCase_digits a Ha), (toLowerCase_digits b Hb).
    reflexivity.
Qed.

Lemma matchGroup1_lower (u : regex) (text : jsstring) :
  groupless u = true -> respects lowerChar (Seq number u) ->
  exec (Seq number u) (toLowerCase text) =
  option_map (mapState lowerChar) (exec (Seq number u) text) /\
  matchGroup1 (Seq number u) (toLowerCase text) =
  matchGroup1 (Seq number u) text.
Proof.
  intros Hu Hr.
  assert (E : exec (Seq number u) (toLowerCase text) =
              option_map (mapState lowerChar) (exec (Seq number u) text)).
  { apply exec_map. exact Hr. }
  split; [exact E|]. unfold matchGroup1 at 1. rewrite E.
  destruct (exec (Seq number u) text) as [m|] eqn:Em; simpl.
  - destruct (exec_captures u text m Hu Em) as (val & Hval).
    assert (Hm : matchGroup1 (Seq number u) text = Some val).
    { unfold matchGroup1. now rewrite Em. }
    rewrite Hm, Hval. simpl. f_equal.
    exact (toLowerCase_capture u text val Hu Hm).
  - unfold matchGroup1. now rewrite Em.
Qed.

End LowerCase.

(** X13.  The extractor does not look at the case of the text: on the
    text put in lower case it gives the same result. *)
Theorem extract_ignores_case (text : jsstring) :
  extractTimeInSeconds (toLowerCase text) = extractTimeInSeconds text.
Proof.
  destruct (matchGroup1_lower minuteUnit text eq_refl respects_minuteRe)
    as [_ Hmin].
  destruct (matchGroup1_lower hourUnit text eq_refl respects_hourRe)
    as [_ Hhour].
  fold minuteRe in Hmin. fold hourRe in Hhour.
  destruct (matchGroup1 minuteRe text) as [vm|] eqn:Em.
  - now rewrite (extract_of_minutes _ vm Hmin), (extract_of_minutes _ vm Em).
  - destruct (matchGroup1 hourRe text) as [vh|] eqn:Eh.
    + now rewrite (extract_of_hours _ vh Hmin Hhour),
        (extract_of_hours _ vh Em Eh).
    + now rewrite (extract_of_nothing _ Hmin Hhour),
        (extract_of_nothing _ Em Eh).
Qed.

(** ** More on the step-ingredient matcher *)

Section MatcherMore.

Lemma imap_indexed_indices (l : list Ingredient) (k : nat) :
  map originalIndex (imap (fun i => indexed (k + i)) l) = seq k (length l).
Proof.
  revert k. induction l as [|x l IH]; intros k; [reflexivity|].
  cbn [imap map length seq]. rewrite Nat.add_0_r. f_equal.
  rewrite <- (IH (S k)). f_equal. apply imap_ext. intros i y _. simpl.
  f_equal. lia.
Qed.

Lemma stepIngredients_indices_sublist (text : jsstring)
    (ings : list Ingredient) :
  sublist (map originalIndex (stepIngredients text ings))
          (seq 0 (length ings)).
Proof.
  rewrite <- (imap_indexed_indices ings 0).
  apply (fmap_sublist originalIndex). unfold stepIngredients.
  apply filter_sublist.
Qed.

Lemma toLowerCase_app (a b : jsstring) :
  toLowerCase (a ++ b) = toLowerCase a ++ toLowerCase b.
Proof. apply map_app. Qed.

Lemma occursIn_extend (sub pre text post : jsstring) :
  occursIn sub text -> occursIn sub (pre ++ text ++ post).
Proof.
  intros (a & b & E). exists (toLowerCase pre ++ a), (b ++ toLowerCase post).
  rewrite !toLowerCase_app, E, <- !app_assoc. reflexivity.
Qed.

Lemma toLowerCase_idempotent (s : jsstring) :
  toLowerCase (toLowerCase s) = toLowerCase s.
Proof.
  unfold toLowerCase. rewrite map_map. apply map_ext, lowerChar_idempotent.
Qed.

Lemma lowerChar_isSep (c : ascii) : isSep (lowerChar c) = isSep c.
Proof. destruct c as [[] [] [] [] [] [] [] []]; reflexivity. Qed.

(** The tokenizer reads the same pieces from the name in lower case. *)
Lemma splitGo_lower (s : jsstring) (inRun : bool) :
  splitGo isSep inRun (toLowerCase s) = map toLowerCase (splitGo isSep inRun s).
Proof.
  revert inRun. induction s as [|c s IH]; intros inRun; [reflexivity|].
  cbn [toLowerCase map splitGo]. fold (toLowerCase s).
  rewrite lowerChar_isSep. destruct (isSep c).
  - destruct inRun; now rewrite IH.
  - rewrite IH. now destruct (splitGo isSep false s).
Qed.

(** No piece is longer than the string. *)
Lemma splitGo_lengths (sep : ascii -> bool) (s : jsstring) (inRun : bool) :
  Forall (fun piece => (length piece <= length s)%nat) (splitGo sep inRun s).
Proof.
  revert inRun. induction s as [|c s IH]; intros inRun.
  - simpl. destruct inRun; repeat constructor.
  - cbn [splitGo]. destruct (sep c).
    + assert (H : Forall (fun piece => (length piece <= length (c :: s))%nat)
                         (splitGo sep true s)).
      { eapply Forall_impl; [apply IH|]. simpl. intros; lia. }
      destruct inRun; [exact H|]. constructor; [simpl; lia | exact H].
    + specialize (IH false).
      destruct (splitGo sep false s) as [|piece pieces].
      * constructor; [simpl; lia | constructor].
      * inversion IH as [|? ? Hp Hps]; subst. constructor; [simpl; lia|].
        eapply Forall_impl; [exact Hps|]. simpl. intros; lia.
Qed.

Lemma existsb_map {A B} (g : A -> B) (p : B -> bool) (l : list A) :
  existsb p (map g l) = existsb (fun x => p (g x)) l.
Proof. induction l as [|x l IH]; simpl; [reflexivity | now rewrite IH]. Qed.

Lemma existsb_pointwise {A} (p q : A -> bool) (l : list A) :
  (forall x, p x = q x) -> existsb p l = existsb q l.
Proof.
  intros E. induction l as [|x l IH]; simpl; [reflexivity|].
  now rewrite E, IH.
Qed.

Lemma mentions_lower_text (text : jsstring) (ing : Ingredient) :
  mentions (toLowerCase text) ing = mentions text ing.
Proof. unfold mentions. now rewrite toLowerCase_idempotent. Qed.

Lemma mentions_lower_name (text : jsstring) (ing : Ingredient) :
  mentions text {| name := toLowerCase (name ing); amount := amount ing |} =
  mentions text ing.
Proof.
  unfold mentions, splitClass. simpl.
  rewrite toLowerCase_idempotent, splitGo_lower, existsb_map.
  destruct (includes (toLowerCase text) (toLowerCase (name ing)));
    [reflexivity|].
  apply existsb_pointwise. intros part.
  unfold toLowerCase at 1. rewrite length_map.
  now rewrite toLowerCase_idempotent.
Qed.

(** The indices returned depend on the ingredients through the answers
    of the callback only. *)
Lemma stepIngredients_indices_ext (text text' : jsstring)
    (l l' : list Ingredient) :
  map (mentions text) l = map (mentions text') l' ->
  map originalIndex (stepIngredients text l) =
  map originalIndex (stepIngredients text' l').
Proof.
  unfold stepIngredients.
  assert (H : forall k,
    map (mentions text) l = map (mentions text') l' ->
    map originalIndex
      (List.filter (fun x => mentions text (ingredient x))
                   (imap (fun i => indexed (k + i)) l)) =
    map originalIndex
      (List.filter (fun x => mentions text' (ingredient x))
                   (imap (fun i => indexed (k + i)) l'))).
  { revert l'. induction l as [|x l IH]; intros [|x' l'] k E;
      try discriminate; [reflexivity|].
    injection E as Ex El. cbn [imap List.filter ingredient indexed].
    rewrite Ex.
    assert (Hrest :
      map originalIndex
        (List.filter (fun y => mentions text (ingredient y))
           (imap ((fun i => indexed (k + i)) ∘ S) l)) =
      map originalIndex
        (List.filter (fun y => mentions text' (ingredient y))
           (imap ((fun i => indexed (k + i)) ∘ S) l'))).
    { rewrite (imap_ext _ (fun i => indexed (S k + i)) l),
        (imap_ext _ (fun i => indexed (S k + i)) l');
        [now apply IH | |]; intros i y _; simpl; f_equal; lia. }
    destruct (mentions text' x'); simpl; now rewrite Hrest. }
  intros E. exact (H 0%nat E).
Qed.

End MatcherMore.

(** X14.  The indices that tag the ingredients returned are pairwise
    different, each is an index of the ingredient list, and the
    ingredient tagged is the one at that index: the tags can serve as
    keys of the rows and of the check list. *)
Theorem stepIngredients_indices_are_keys (text : jsstring)
    (ings : list Ingredient) :
  NoDup (map originalIndex (stepIngredients text ings)) /\
  (length (stepIngredients text ings) <= length ings)%nat /\
  forall x, In x (stepIngredients text ings) ->
    ings !! originalIndex x = Some (ingredient x).
Proof.
  pose proof (stepIngredients_indices_sublist text ings) as Hsub.
  split; [|split].
  - eapply sublist_NoDup; [apply NoDup_seq | exact Hsub].
  - apply sublist_length in Hsub.
    now rewrite length_map, length_seq in Hsub.
  - intros [ing idx] Hin. simpl.
    now apply (stepIngredients_In text ings idx ing) in Hin as [H _].
Qed.

(** X15.  Text added before or after the step text never removes an
    ingredient from the result. *)
Theorem stepIngredients_grows_with_text (pre text post : jsstring)
    (ings : list Ingredient) (x : IndexedIngredient) :
  In x (stepIngredients text ings) ->
  In x (stepIngredients (pre ++ text ++ post) ings).
Proof.
  destruct x as [ing idx]. change (In (indexed idx ing) (stepIngredients text ings)
    -> In (indexed idx ing) (stepIngredients (pre ++ text ++ post) ings)).
  rewrite !stepIngredients_In, !mentions_referenced.
  intros [Hidx Href]. split; [exact Hidx|].
  destruct Href as [Hfull | (tok & Htok & Hlen & Hocc)].
  - left. now apply occursIn_extend.
  - right. exists tok. repeat split; try apply Htok; auto.
    now apply occursIn_extend.
Qed.

Lemma stepIngredients_grows_with_text_witness :
  In (indexed 1 {| name := js "Salt"; amount := js "a pinch" |})
     (stepIngredients (js "Now " ++ js "add salt" ++ js " to taste")
                      (ingredients soup)).
Proof.
  apply (stepIngredients_grows_with_text (js "Now ") (js "add salt")
           (js " to taste") (ingredients soup)).
  vm_compute. auto.
Defined.

(** X16.  The matcher does not look at the case: the result is the same
    on the step text put in lower case, and the same indices come back
    when the names of the ingredients are put in lower case. *)
Theorem stepIngredients_ignores_case (text : jsstring)
    (ings : list Ingredient) :
  stepIngredients (toLowerCase text) ings = stepIngredients text ings /\
  map originalIndex
    (stepIngredients text
       (map (fun ing => {| name := toLowerCase (name ing);
                           amount := amount ing |}) ings)) =
  map originalIndex (stepIngredients text ings).
Proof.
  split.
  - unfold stepIngredients. apply filter_ext. intros x.
    apply mentions_lower_text.
  - apply stepIngredients_indices_ext. rewrite map_map. apply map_ext.
    apply mentions_lower_name.
Qed.

(** X17.  An ingredient whose name has fewer than 4 units is returned
    only when its whole name occurs in the step text: no token of it is
    long enough to count. *)
Theorem short_name_needs_full_match (text : jsstring) (ings : list Ingredient)
    (idx : nat) (ing : Ingredient) :
  (length (name ing) < 4)%nat ->
  In (indexed idx ing) (stepIngredients text ings) <->
  ings !! idx = Some ing /\ occursIn (name ing) text.
Proof.
  intros Hshort. rewrite stepIngredients_In. unfold mentions.
  rewrite <- occursIn_includes.
  destruct (includes (toLowerCase text) (toLowerCase (name ing))) eqn:E;
    [tauto|].
  replace (existsb _ _) with false; [intuition discriminate|].
  symmetry. apply not_true_is_false. intros H.
  apply existsb_exists in H as (part & Hin & Hp).
  apply andb_true_iff in Hp as [Hlen _]. apply Nat.leb_le in Hlen.
  pose proof (splitGo_lengths isSep (name ing) false) as Hall.
  rewrite Forall_forall in Hall. unfold splitClass in Hin.
  apply list_elem_of_In, Hall in Hin. lia.
Qed.

Lemma short_name_needs_full_match_witness :
  In (indexed 0 {| name := js "Oil"; amount := js "1 tbsp" |})
     (stepIngredients (js "Heat the oil")
        [ {| name := js "Oil"; amount := js "1 tbsp" |} ]) <->
  [ {| name := js "Oil"; amount := js "1 tbsp" |} ] !! 0%nat =
  Some {| name := js "Oil"; amount := js "1 tbsp" |} /\
  occursIn (js "Oil") (js "Heat the oil").
Proof.
  apply (short_name_needs_full_match (js "Heat the oil")
           [ {| name := js "Oil"; amount := js "1 tbsp" |} ] 0
           {| name := js "Oil"; amount := js "1 tbsp" |}).
  simpl. lia.
Defined.

(** ** The servings adjuster *)

Section Servings.

Import RecipeDetail.

Lemma press_in_range (b : Button) (s : Z) :
  1 <= s <= 20 -> 1 <= press b s <= 20.
Proof.
  intros Hs. unfold press, handleServingsChange.
  destruct b; [destruct (s <=? 1) eqn:E|]; lia.
Qed.

Lemma pressAll_in_range (bs : list Button) (s : Z) :
  1 <= s <= 20 -> 1 <= pressAll bs s <= 20.
Proof.
  revert s. induction bs as [|b bs IH]; intros s Hs; [exact Hs|].
  apply (IH (press b s)), press_in_range, Hs.
Qed.

Lemma pressAll_plus (n : nat) (s : Z) :
  1 <= s <= 20 -> pressAll (repeat Plus n) s = Z.min 20 (s + Z.of_nat n).
Proof.
  revert s. induction n as [|n IH]; intros s Hs.
  - simpl. lia.
  - change (pressAll (repeat Plus (S n)) s)
      with (pressAll (repeat Plus n) (press Plus s)).
    rewrite IH by (apply press_in_range, Hs).
    unfold press, handleServingsChange. lia.
Qed.

Lemma pressAll_minus (n : nat) (s : Z) :
  1 <= s <= 20 -> pressAll (repeat Minus n) s = Z.max 1 (s - Z.of_nat n).
Proof.
  revert s. induction n as [|n IH]; intros s Hs.
  - simpl. lia.
  - change (pressAll (repeat Minus (S n)) s)
      with (pressAll (repeat Minus n) (press Minus s)).
    rewrite IH by (apply press_in_range, Hs).
    unfold press, handleServingsChange. destruct (s <=? 1) eqn:E; lia.
Qed.

End Servings.

(** X18.  From a number of servings between 1 and 20, the buttons of the
    adjuster never lead out of that range; [n] presses on plus give
    [min 20 (s + n)] and [n] presses on minus give [max 1 (s - n)]. *)
Theorem servings_follow_the_presses (s : Z) :
  1 <= s <= 20 ->
  (forall bs, 1 <= RecipeDetail.pressAll bs s <= 20) /\
  (forall n : nat,
     RecipeDetail.pressAll (repeat RecipeDetail.Plus n) s
       = Z.min 20 (s + Z.of_nat n) /\
     RecipeDetail.pressAll (repeat RecipeDetail.Minus n) s
       = Z.max 1 (s - Z.of_nat n)).
Proof.
  intros Hs. split.
  - intros bs. now apply pressAll_in_range.
  - intros n. split; [now apply pressAll_plus | now apply pressAll_minus].
Qed.

Lemma servings_follow_the_presses_witness :
  (forall bs, 1 <= RecipeDetail.pressAll bs 4 <= 20) /\
  (forall n : nat,
     RecipeDetail.pressAll (repeat RecipeDetail.Plus n) 4
       = Z.min 20 (4 + Z.of_nat n) /\
     RecipeDetail.pressAll (repeat RecipeDetail.Minus n) 4
       = Z.max 1 (4 - Z.of_nat n)).
Proof. apply (servings_follow_the_presses 4). lia. Defined.

(** ** The cookbook, the filters and the ingredient list *)

Section Cookbook.

Import App.

Lemma sameString_true (a b : jsstring) : sameString a b = true <-> a = b.
Proof. unfold sameString. apply bool_decide_eq_true. Qed.

Lemma sameString_false (a b : jsstring) : sameString a b = false <-> a <> b.
Proof. unfold sameString. apply bool_decide_eq_false. Qed.

Lemma sameString_refl (a : jsstring) : sameString a a = true.
Proof. now apply sameString_true. Qed.

Lemma arrayIncludes_In (arr : list jsstring) (x : jsstring) :
  arrayIncludes arr x = true <-> In x arr.
Proof.
  unfold arrayIncludes. rewrite existsb_exists. split.
  - intros (y & Hin & E). apply sameString_true in E. now subst.
  - intros Hin. exists x. split; [exact Hin | apply sameString_refl].
Qed.

Lemma arrayIncludes_not_In (arr : list jsstring) (x : jsstring) :
  arrayIncludes arr x = false <-> ~ In x arr.
Proof.
  rewrite <- arrayIncludes_In. symmetry. apply not_true_iff_false.
Qed.

Lemma isSaved_spec (l : list Recipe) (recipe : Recipe) :
  isSaved l recipe = true <-> exists r, In r l /\ id r = id recipe.
Proof.
  unfold isSaved. rewrite existsb_exists.
  split; intros (r & Hin & E); exists r; split; try exact Hin;
    now apply sameString_true.
Qed.

Lemma isSaved_same_id (l : list Recipe) (r1 r2 : Recipe) :
  id r1 = id r2 -> isSaved l r1 = isSaved l r2.
Proof. intros E. unfold isSaved. now rewrite E. Qed.

Lemma filter_all {A} (p : A -> bool) (l : list A) :
  (forall x, In x l -> p x = true) -> List.filter p l = l.
Proof.
  induction l as [|x l IH]; intros H; [reflexivity|]. simpl.
  rewrite (H x) by now left. f_equal. apply IH. intros y Hy. apply H.
  now right.
Qed.

Lemma existsb_filter {A} (p q : A -> bool) (l : list A) :
  existsb p (List.filter q l) = existsb (fun x => q x && p x) l.
Proof.
  induction l as [|x l IH]; [reflexivity|]. simpl.
  destruct (q x); simpl; now rewrite IH.
Qed.

Lemma filter_twice {A} (p q : A -> bool) (l : list A) :
  List.filter p (List.filter q l) = List.filter (fun x => q x && p x) l.
Proof.
  induction l as [|x l IH]; [reflexivity|]. simpl.
  destruct (q x); simpl; [destruct (p x)|]; now rewrite IH.
Qed.

Lemma filter_pointwise {A} (p q : A -> bool) (l : list A) :
  (forall x, p x = q x) -> List.filter p l = List.filter q l.
Proof.
  intros E. induction l as [|x l IH]; [reflexivity|]. simpl.
  now rewrite E, IH.
Qed.

Lemma not_saved_filter (l : list Recipe) (recipe : Recipe) :
  isSaved l recipe = false ->
  List.filter (fun r => negb (sameString (id r) (id recipe))) l = l.
Proof.
  intros Hno. apply filter_all. intros r Hin.
  destruct (sameString (id r) (id recipe)) eqn:E; [|reflexivity].
  assert (isSaved l recipe = true); [|congruence].
  apply isSaved_spec. exists r. split; [exact Hin|].
  now apply sameString_true.
Qed.

Lemma map_filter_sublist {A B} (g : A -> B) (p : A -> bool) (l : list A) :
  sublist (map g (List.filter p l)) (map g l).
Proof.
  induction l as [|x l IH]; [constructor|]. simpl.
  destruct (p x); simpl; now constructor.
Qed.

Lemma hasAllTags_spec (fs : list jsstring) (r : Recipe) :
  hasAllTags fs r = true <->
  forall f, In f fs ->
    arrayIncludes (map toLowerCase (tags r)) (toLowerCase f) = true.
Proof. unfold hasAllTags. apply forallb_forall. Qed.

Lemma hasAllTags_same_filters (fs fs' : list jsstring) (r : Recipe) :
  (forall f, In f fs <-> In f fs') -> hasAllTags fs r = hasAllTags fs' r.
Proof.
  intros E. apply eq_true_iff_eq. rewrite !hasAllTags_spec.
  split; intros H f Hf; apply H, E, Hf.
Qed.

Lemma hasAllTags_snoc (fs : list jsstring) (f : jsstring) (r : Recipe) :
  hasAllTags (fs ++ [f]) r =
  hasAllTags fs r &&
  arrayIncludes (map toLowerCase (tags r)) (toLowerCase f).
Proof.
  unfold hasAllTags. rewrite forallb_app. simpl. now rewrite andb_true_r.
Qed.

End Cookbook.

(** X19.  Saving or unsaving a recipe flips whether recipes with its id
    are in the cookbook, and leaves that of every other id as it was. *)
Theorem toggleSaveRecipe_flips_saved (recipe other : App.Recipe)
    (savedRecipes : list App.Recipe) :
  App.isSaved (App.toggleSaveRecipe recipe savedRecipes) other =
  if App.sameString (App.id other) (App.id recipe)
  then negb (App.isSaved savedRecipes other)
  else App.isSaved savedRecipes other.
Proof.
  unfold App.toggleSaveRecipe.
  destruct (App.isSaved savedRecipes recipe) eqn:Hs.
  - unfold App.isSaved at 1. rewrite existsb_filter.
    destruct (App.sameString (App.id other) (App.id recipe)) eqn:E.
    + apply sameString_true in E.
      rewrite (isSaved_same_id savedRecipes other recipe E), Hs. simpl.
      apply not_true_is_false. rewrite existsb_exists.
      intros (r & _ & H). apply andb_true_iff in H as [H1 H2].
      apply sameString_true in H2. rewrite H2, E, sameString_refl in H1.
      discriminate.
    + unfold App.isSaved. apply existsb_pointwise. intros r.
      destruct (App.sameString (App.id r) (App.id other)) eqn:E2;
        [|apply andb_false_r].
      apply sameString_true in E2. now rewrite E2, E.
  - unfold App.isSaved at 1. rewrite existsb_app. simpl.
    rewrite orb_false_r. fold (App.isSaved savedRecipes other).
    destruct (App.sameString (App.id other) (App.id recipe)) eqn:E.
    + apply sameString_true in E.
      rewrite (isSaved_same_id savedRecipes other recipe E), Hs, <- E.
      now rewrite sameString_refl.
    + replace (App.sameString (App.id recipe) (App.id other)) with false;
        [apply orb_false_r|].
      symmetry. apply sameString_false. apply sameString_false in E.
      congruence.
Qed.

(** X20.  Saving a recipe that is not in the cookbook and unsaving it
    again gives the cookbook back as it was. *)
Theorem save_then_unsave_restores (recipe : App.Recipe)
    (savedRecipes : list App.Recipe) :
  App.isSaved savedRecipes recipe = false ->
  App.toggleSaveRecipe recipe (App.toggleSaveRecipe recipe savedRecipes) =
  savedRecipes.
Proof.
  intros Hno. unfold App.toggleSaveRecipe at 2. rewrite Hno.
  unfold App.toggleSaveRecipe.
  replace (App.isSaved (savedRecipes ++ [recipe]) recipe) with true.
  - rewrite List.filter_app, (not_saved_filter _ _ Hno). simpl.
    rewrite sameString_refl. simpl. apply app_nil_r.
  - symmetry. apply isSaved_spec. exists recipe. split; [|reflexivity].
    apply in_or_app. right. now left.
Qed.

Lemma save_then_unsave_restores_witness :
  App.toggleSaveRecipe salad (App.toggleSaveRecipe salad [pasta; stew]) =
  [pasta; stew].
Proof.
  apply (save_then_unsave_restores salad [pasta; stew]).
  vm_compute. reflexivity.
Defined.

(** X21.  A cookbook whose recipes have pairwise different ids keeps
    that property when a recipe is saved or unsaved. *)
Theorem toggleSaveRecipe_keeps_ids_distinct (recipe : App.Recipe)
    (savedRecipes : list App.Recipe) :
  NoDup (map App.id savedRecipes) ->
  NoDup (map App.id (App.toggleSaveRecipe recipe savedRecipes)).
Proof.
  intros Hnd. unfold App.toggleSaveRecipe.
  destruct (App.isSaved savedRecipes recipe) eqn:Hs.
  - eapply sublist_NoDup; [exact Hnd | apply map_filter_sublist].
  - rewrite map_app. simpl. apply NoDup_app. split; [exact Hnd|].
    split; [|apply NoDup_singleton].
    intros x Hx Hx'. apply list_elem_of_singleton in Hx'. subst x.
    apply list_elem_of_In, in_map_iff in Hx as (r & E & Hin).
    assert (App.isSaved savedRecipes recipe = true); [|congruence].
    apply isSaved_spec. now exists r.
Qed.

Lemma toggleSaveRecipe_keeps_ids_distinct_witness :
  NoDup (map App.id (App.toggleSaveRecipe pasta [pasta; stew])).
Proof.
  apply (toggleSaveRecipe_keeps_ids_distinct pasta [pasta; stew]).
  apply (bool_decide_unpack _). vm_compute. exact I.
Defined.

(** X22.  Toggling a filter twice shows the same recipes as before. *)
Theorem toggleFilter_twice_same_display (viewMode : App.ViewMode)
    (recipes savedRecipes : list App.Recipe)
    (filter : jsstring) (activeFilters : list jsstring) :
  App.getDisplayRecipes viewMode recipes savedRecipes
    (App.toggleFilter filter (App.toggleFilter filter activeFilters)) =
  App.getDisplayRecipes viewMode recipes savedRecipes activeFilters.
Proof.
  unfold App.toggleFilter at 2.
  destruct (App.arrayIncludes activeFilters filter) eqn:Hin.
  - set (rest := List.filter _ activeFilters).
    assert (Hrest : forall f, In f rest <-> In f activeFilters /\ f <> filter).
    { intros f. unfold rest. rewrite filter_In, negb_true_iff.
      now rewrite sameString_false. }
    unfold App.toggleFilter.
    replace (App.arrayIncludes rest filter) with false.
    + unfold App.getDisplayRecipes.
      apply arrayIncludes_In in Hin.
      destruct activeFilters as [|f0 fs]; [contradiction|].
      rewrite length_app. simpl length.
      replace (length rest + 1 =? 0)%nat with false
        by (symmetry; apply Nat.eqb_neq; lia).
      simpl Nat.eqb. apply filter_pointwise. intros r.
      apply hasAllTags_same_filters. intros f.
      rewrite in_app_iff, Hrest. simpl in Hin |- *.
      destruct (decide (f = filter)) as [->|Hne]; intuition congruence.
    + symmetry. apply arrayIncludes_not_In. rewrite Hrest. tauto.
  - unfold App.toggleFilter.
    replace (App.arrayIncludes (activeFilters ++ [filter]) filter) with true.
    + rewrite List.filter_app. simpl. rewrite sameString_refl. simpl.
      rewrite app_nil_r, filter_all; [reflexivity|].
      intros f Hf. apply negb_true_iff, sameString_false. intros ->.
      apply arrayIncludes_not_In in Hin. contradiction.
    + symmetry. apply arrayIncludes_In, in_or_app. right. now left.
Qed.

(** X23.  Switching on a filter that is not active keeps, of the recipes
    shown, exactly those that carry its tag, whatever the case of the tag
    and of the filter. *)
Theorem new_filter_narrows_display (viewMode : App.ViewMode)
    (recipes savedRecipes : list App.Recipe)
    (filter : jsstring) (activeFilters : list jsstring) :
  App.arrayIncludes activeFilters filter = false ->
  App.getDisplayRecipes viewMode recipes savedRecipes
    (App.toggleFilter filter activeFilters) =
  List.filter
    (fun r => App.arrayIncludes (map toLowerCase (App.tags r))
                                (toLowerCase filter))
    (App.getDisplayRecipes viewMode recipes savedRecipes activeFilters).
Proof.
  intros Hno. unfold App.toggleFilter. rewrite Hno.
  unfold App.getDisplayRecipes. rewrite length_app. simpl length.
  replace (length activeFilters + 1 =? 0)%nat with false
    by (symmetry; apply Nat.eqb_neq; lia).
  destruct activeFilters as [|f0 fs].
  - simpl. apply filter_pointwise. intros r. unfold App.hasAllTags. simpl.
    apply andb_true_r.
  - change (length (f0 :: fs) =? 0)%nat with false. cbv iota.
    rewrite filter_twice. apply filter_pointwise. intros r.
    apply hasAllTags_snoc.
Qed.

Lemma new_filter_narrows_display_witness :
  App.getDisplayRecipes App.saved [] [pasta; salad; stew]
    (App.toggleFilter (js "QUICK") [js "vegan"]) =
  List.filter
    (fun r => App.arrayIncludes (map toLowerCase (App.tags r))
                                (toLowerCase (js "QUICK")))
    (App.getDisplayRecipes App.saved [] [pasta; salad; stew] [js "vegan"]).
Proof.
  apply (new_filter_narrows_display App.saved [] [pasta; salad; stew]
           (js "QUICK") [js "vegan"]).
  vm_compute. reflexivity.
Defined.

(** ** The ingredient list of the search *)

Section IngredientList.

Import App.

Lemma trimStart_head (s : jsstring) : headNotSpace (trimStart s).
Proof.
  induction s as [|c s IH]; [exact I|]. simpl.
  destruct (isSpace c) eqn:E; [exact IH | exact E].
Qed.

Lemma trimStart_fixed (s : jsstring) : headNotSpace s -> trimStart s = s.
Proof. destruct s as [|c s]; [reflexivity|]. simpl. now intros ->. Qed.

Lemma trimStart_suffix (s : jsstring) : exists pre, s = pre ++ trimStart s.
Proof.
  induction s as [|c s [pre IH]]; [now exists []|]. simpl.
  destruct (isSpace c).
  - exists (c :: pre). simpl. now f_equal.
  - now exists [].
Qed.

Lemma headNotSpace_prefix (a b : jsstring) :
  a <> [] -> headNotSpace (a ++ b) -> headNotSpace a.
Proof. destruct a; [congruence | auto]. Qed.

Lemma trim_idempotent (val : jsstring) : trim (trim val) = trim val.
Proof.
  unfold trim.
  pose proof (trimStart_head val) as Ha.
  set (a := trimStart val) in *.
  pose proof (trimStart_head (rev a)) as Hb.
  destruct (trimStart_suffix (rev a)) as [pre Hpre].
  set (b := trimStart (rev a)) in *.
  assert (Hrb : trimStart (rev b) = rev b).
  { destruct (decide (b = [])) as [->|Hne]; [reflexivity|].
    apply trimStart_fixed.
    apply (headNotSpace_prefix (rev b) (rev pre)).
    - intros E. apply Hne. apply (f_equal (@rev ascii)) in E.
      now rewrite rev_involutive in E.
    - rewrite <- rev_app_distr, <- Hpre, rev_involutive. exact Ha. }
  rewrite Hrb, rev_involutive. now rewrite (trimStart_fixed b Hb).
Qed.

Lemma handleAddIngredient_clean (val : jsstring) (l : list jsstring) :
  cleanList l -> cleanList (handleAddIngredient val l).
Proof.
  intros [Hnd Hall]. unfold handleAddIngredient.
  destruct (length (trim val) =? 0)%nat eqn:Hlen; simpl; [now split|].
  destruct (arrayIncludes l (trim val)) eqn:Hinc; simpl; [now split|].
  apply arrayIncludes_not_In in Hinc. apply Nat.eqb_neq in Hlen.
  split.
  - apply NoDup_app. split; [exact Hnd|]. split; [|apply NoDup_singleton].
    intros x Hx Hx'. apply list_elem_of_singleton in Hx'. subst x.
    apply Hinc. now apply list_elem_of_In.
  - intros x Hx. apply in_app_or in Hx as [Hx|[<-|[]]]; [now apply Hall|].
    split; [|apply trim_idempotent].
    intros E. apply Hlen. now rewrite E.
Qed.

Lemma removeIngredient_clean (ing : jsstring) (l : list jsstring) :
  cleanList l -> cleanList (removeIngredient ing l).
Proof.
  intros [Hnd Hall]. unfold removeIngredient. split.
  - eapply sublist_NoDup; [exact Hnd | apply filter_sublist].
  - intros x Hx. apply filter_In in Hx as [Hx _]. now apply Hall.
Qed.

Lemma fold_ingredientStep_clean (actions : list IngredientAction)
    (l : list jsstring) :
  cleanList l -> cleanList (fold_left ingredientStep actions l).
Proof.
  revert l. induction actions as [|a actions IH]; intros l Hl; [exact Hl|].
  simpl. apply IH. destruct a; simpl.
  - now apply handleAddIngredient_clean.
  - now apply removeIngredient_clean.
Qed.

End IngredientList.

(** X24.  Whatever is added to and removed from the ingredient list, it
    holds no entry twice, no empty entry, and no entry with white space
    at its start or end. *)
Theorem ingredient_list_stays_clean (actions : list App.IngredientAction) :
  NoDup (App.ingredientsAfter actions) /\
  forall x, In x (App.ingredientsAfter actions) ->
    x <> [] /\ App.trim x = x.
Proof.
  apply (fold_ingredientStep_clean actions []).
  split; [constructor | intros x []].
Qed.

(** ** The weekly plan *)

Section WeeklyPlan.

Import App.

(** The handler in one piece: the object of the day, empty when the day
    has none, is updated and put back, or the day is dropped. *)
Lemma handleUpdateMealPlan_eq (day : DayOfWeek) (type : MealType)
    (recipe : option Recipe) (mealPlan : MealPlan) :
  handleUpdateMealPlan day type recipe mealPlan =
  Some (let meals := default ∅ (mealPlan !! day) in
        match recipe with
        | Some r => <[day := <[type := r]> meals]> mealPlan
        | None =>
            if (size (delete type meals) =? 0)%nat then delete day mealPlan
            else <[day := delete type meals]> mealPlan
        end).
Proof.
  unfold handleUpdateMealPlan.
  destruct (mealPlan !! day) as [meals|] eqn:E;
    cbv beta iota zeta delta [default from_option Datatypes.id].
  - rewrite E. destruct recipe; [reflexivity|].
    destruct (size (delete type meals) =? 0)%nat; reflexivity.
  - rewrite lookup_insert_eq. destruct recipe.
    + now rewrite insert_insert_eq.
    + rewrite delete_empty, map_size_empty.
      change (0 =? 0)%nat with true. cbv iota.
      now rewrite delete_insert_eq.
Qed.

Lemma plannedRecipe_default (mealPlan : MealPlan) (day : DayOfWeek)
    (type : MealType) :
  plannedRecipe mealPlan day type = default ∅ (mealPlan !! day) !! type.
Proof.
  unfold plannedRecipe. destruct (mealPlan !! day); [reflexivity|].
  simpl. now rewrite lookup_empty.
Qed.

Lemma size_zero_empty (meals : gmap MealType Recipe) :
  (size meals =? 0)%nat = true <-> meals = ∅.
Proof. rewrite Nat.eqb_eq. apply map_size_empty_iff. Qed.

Lemma updated_slots (day : DayOfWeek) (type : MealType)
    (recipe : option Recipe) (mealPlan plan' : MealPlan) :
  handleUpdateMealPlan day type recipe mealPlan = Some plan' ->
  forall d t,
    plannedRecipe plan' d t =
    if decide (d = day /\ t = type) then recipe
    else plannedRecipe mealPlan d t.
Proof.
  rewrite handleUpdateMealPlan_eq. intros [= <-] d t.
  rewrite !plannedRecipe_default. cbv zeta.
  set (meals := default ∅ (mealPlan !! day)).
  destruct (decide (d = day)) as [->|Hd].
  - fold meals.
    assert (Hgoal :
      default ∅ (match recipe with
                 | Some r => <[day := <[type := r]> meals]> mealPlan
                 | None =>
                     if (size (delete type meals) =? 0)%nat
                     then delete day mealPlan
                     else <[day := delete type meals]> mealPlan
                 end !! day) !! t =
      if decide (t = type) then recipe else meals !! t).
    { destruct recipe as [r|].
      - rewrite lookup_insert_eq. simpl. rewrite lookup_insert.
        destruct (decide (type = t)), (decide (t = type)); congruence.
      - destruct (size (delete type meals) =? 0)%nat eqn:S.
        + rewrite lookup_delete_eq. simpl. rewrite lookup_empty.
          apply size_zero_empty in S.
          destruct (decide (t = type)); [reflexivity|].
          rewrite <- (lookup_delete_ne meals type t) by congruence.
          now rewrite S, lookup_empty.
        + rewrite lookup_insert_eq. simpl. rewrite lookup_delete.
          destruct (decide (type = t)), (decide (t = type)); congruence. }
    rewrite Hgoal.
    destruct (decide (t = type)) as [->|Ht].
    + now rewrite decide_True.
    + rewrite decide_False by tauto. reflexivity.
  - rewrite decide_False by tauto. f_equal. f_equal.
    destruct recipe as [r|].
    + now apply lookup_insert_ne.
    + destruct (size (delete type meals) =? 0)%nat.
      * now apply lookup_delete_ne.
      * now apply lookup_insert_ne.
Qed.

End WeeklyPlan.

(** X25.  An update of the plan never fails; afterwards the slot of the
    day and meal type holds the recipe given, or nothing when the slot
    was cleared, and every other slot holds what it held. *)
Theorem handleUpdateMealPlan_sets_one_slot (day : App.DayOfWeek)
    (type : App.MealType) (recipe : option App.Recipe)
    (mealPlan : App.MealPlan) :
  exists plan',
    App.handleUpdateMealPlan day type recipe mealPlan = Some plan' /\
    forall d t,
      App.plannedRecipe plan' d t =
      if decide (d = day /\ t = type) then recipe
      else App.plannedRecipe mealPlan d t.
Proof.
  destruct (App.handleUpdateMealPlan day type recipe mealPlan)
    as [plan'|] eqn:E.
  - exists plan'. split; [reflexivity|]. now apply updated_slots.
  - now rewrite handleUpdateMealPlan_eq in E.
Qed.

(** X26.  A plan in which no day is left without a meal stays so under
    every update: clearing the last meal of a day drops the day. *)
Theorem handleUpdateMealPlan_leaves_no_empty_day (day : App.DayOfWeek)
    (type : App.MealType) (recipe : option App.Recipe)
    (mealPlan plan' : App.MealPlan) :
  App.noEmptyDay mealPlan ->
  App.handleUpdateMealPlan day type recipe mealPlan = Some plan' ->
  App.noEmptyDay plan'.
Proof.
  intros Hinv. rewrite handleUpdateMealPlan_eq. intros [= <-] d meals.
  cbv zeta. destruct recipe as [r|].
  - rewrite lookup_insert. destruct (decide (day = d)).
    + intros [= <-]. apply insert_non_empty.
    + apply Hinv.
  - destruct (size _ =? 0)%nat eqn:S.
    + rewrite lookup_delete. destruct (decide (day = d)); [discriminate|].
      apply Hinv.
    + rewrite lookup_insert. destruct (decide (day = d)); [|apply Hinv].
      intros [= <-] E. apply size_zero_empty in E. congruence.
Qed.

Lemma handleUpdateMealPlan_leaves_no_empty_day_witness :
  App.handleUpdateMealPlan App.Monday App.Lunch None
    {[ App.Monday := {[ App.Lunch := pasta ]} ]} = Some ∅ /\
  App.noEmptyDay ∅.
Proof.
  split; [vm_compute; reflexivity|].
  apply (handleUpdateMealPlan_leaves_no_empty_day App.Monday App.Lunch None
           {[ App.Monday := {[ App.Lunch := pasta ]} ]} ∅).
  - intros d meals. rewrite lookup_singleton_Some. intros [_ <-].
    apply insert_non_empty.
  - vm_compute. reflexivity.
Defined.

(** X27.  In a plan without an empty day, putting a recipe in a free
    slot and clearing the slot again gives the plan back as it was. *)
Theorem plan_then_clear_restores (day : App.DayOfWeek) (type : App.MealType)
    (r : App.Recipe) (mealPlan : App.MealPlan) :
  App.noEmptyDay mealPlan ->
  App.plannedRecipe mealPlan day type = None ->
  exists planned,
    App.handleUpdateMealPlan day type (Some r) mealPlan = Some planned /\
    App.handleUpdateMealPlan day type None planned = Some mealPlan.
Proof.
  intros Hinv Hfree. rewrite plannedRecipe_default in Hfree.
  eexists. split; [apply handleUpdateMealPlan_eq|].
  rewrite handleUpdateMealPlan_eq. f_equal. cbv zeta.
  rewrite lookup_insert_eq. simpl.
  rewrite delete_insert_id by exact Hfree.
  destruct (mealPlan !! day) as [meals|] eqn:E; simpl.
  - replace (size meals =? 0)%nat with false.
    + rewrite insert_insert_eq. now apply insert_id.
    + symmetry. apply not_true_iff_false. rewrite size_zero_empty.
      now apply (Hinv day).
  - rewrite map_size_empty. simpl. now apply delete_insert_id.
Qed.

Lemma plan_then_clear_restores_witness :
  exists planned,
    App.handleUpdateMealPlan App.Friday App.Dinner (Some stew)
      {[ App.Monday := {[ App.Lunch := pasta ]} ]} = Some planned /\
    App.handleUpdateMealPlan App.Friday App.Dinner None planned =
    Some {[ App.Monday := {[ App.Lunch := pasta ]} ]}.
Proof.
  apply (plan_then_clear_restores App.Friday App.Dinner stew
           {[ App.Monday := {[ App.Lunch := pasta ]} ]}).
  - intros d meals. rewrite lookup_singleton_Some. intros [_ <-].
    apply insert_non_empty.
  - vm_compute. reflexivity.
Defined.

(** X28.  A drop on a slot never fails and changes no other slot; when a
    saved recipe has the id dropped, the slot then holds a saved recipe
    with that id, and when none has, the plan is left as it was. *)
Theorem handleDrop_plans_a_saved_recipe (recipeId : jsstring)
    (day : App.DayOfWeek) (type : App.MealType)
    (savedRecipes : list App.Recipe) (mealPlan : App.MealPlan) :
  exists plan',
    App.handleDrop recipeId day type savedRecipes mealPlan = Some plan' /\
    (forall d t, ~ (d = day /\ t = type) ->
       App.plannedRecipe plan' d t = App.plannedRecipe mealPlan d t) /\
    ((exists r, In r savedRecipes /\ App.id r = recipeId /\
                App.plannedRecipe plan' day type = Some r) \/
     ((forall r, In r savedRecipes -> App.id r <> recipeId) /\
      plan' = mealPlan)).
Proof.
  unfold App.handleDrop.
  destruct (List.find _ savedRecipes) as [recipe|] eqn:F.
  - apply find_some in F as [Hin Hid]. apply sameString_true in Hid.
    destruct (App.handleUpdateMealPlan day type (Some recipe) mealPlan)
      as [plan'|] eqn:E; [|now rewrite handleUpdateMealPlan_eq in E].
    pose proof (updated_slots _ _ _ _ _ E) as Hslots.
    exists plan'. split; [reflexivity|]. split.
    + intros d t Hne. rewrite Hslots. now rewrite decide_False.
    + left. exists recipe. split; [exact Hin|]. split; [exact Hid|].
      rewrite Hslots. now rewrite decide_True.
  - exists mealPlan. split; [reflexivity|]. split; [reflexivity|].
    right. split; [|reflexivity]. intros r Hin.
    apply (find_none _ _ F) in Hin. now apply sameString_false.
Qed.

(** ** The ids of a batch of recipes *)

Section RecipeIds.

Import GeminiService.

Lemma recipeId_index (now now' : N) (i j : nat) :
  recipeId now i = recipeId now' j -> i = j.
Proof.
  intros E. unfold recipeId in E. rewrite !app_assoc in E.
  apply (f_equal (@rev ascii)) in E.
  rewrite !(rev_app_distr _ (js (pretty i))),
          !(rev_app_distr _ (js (pretty j))) in E.
  rewrite !(rev_app_distr _ (js "-")) in E.
  change (rev (js "-")) with ["-"%char] in E. simpl app in E.
  apply (f_equal (splitFirst "-")) in E.
  rewrite !splitFirst_app in E.
  - apply (f_equal (@rev ascii)) in E. rewrite !rev_involutive in E.
    apply js_inj in E. now apply (inj pretty) in E.
  - apply digits_without; [reflexivity|]. apply Forall_rev, index_digits.
  - apply digits_without; [reflexivity|]. apply Forall_rev, index_digits.
Qed.

Lemma addIds_ids (clock : nat -> N) (recipes : list App.Recipe) (k : nat) :
  map App.id
    (imap (fun index r => withId r (recipeId (clock (k + index)%nat)
                                            (k + index))) recipes) =
  map (fun index => recipeId (clock index) index)
      (seq k (length recipes)).
Proof.
  revert k. induction recipes as [|r l IH]; intros k; [reflexivity|].
  cbn [imap map length seq]. rewrite Nat.add_0_r. f_equal.
  rewrite <- (IH (S k)). f_equal. apply imap_ext. intros i y _. simpl.
  now replace (k + S i)%nat with (S (k + i)) by lia.
Qed.

End RecipeIds.

(** X29.  The recipes of one batch get pairwise different ids, whatever
    the clock returns while they are numbered, and the batch keeps its
    length. *)
Theorem generated_ids_are_distinct (clock : nat -> N)
    (recipes : list App.Recipe) :
  NoDup (map App.id (GeminiService.addIds clock recipes)) /\
  length (GeminiService.addIds clock recipes) = length recipes.
Proof.
  split.
  - pose proof (addIds_ids clock recipes 0) as E.
    change (map App.id (GeminiService.addIds clock recipes) =
            map (fun index => GeminiService.recipeId (clock index) index)
                (seq 0 (length recipes))) in E.
    rewrite E. apply NoDup_fmap_2_strong; [|apply NoDup_seq].
    intros i j _ _ Eid. now apply recipeId_index in Eid.
  - unfold GeminiService.addIds. apply length_imap.
Qed.
